(** * The upload queue of [src/App.tsx]

    A shallow embedding of the file-intake widget: the validation of dropped
    files, the asynchronous [uploadFile] with its three queue updaters,
    [handleFiles], [removeFile], [retryUpload] and the summary the component
    renders, together with a small model of the JavaScript runtime they rest
    on (strings, [Math.random], promises, IEEE doubles). *)

From Stdlib Require Import String Ascii List ZArith NArith Bool Arith Lia.
From Stdlib Require Import DecimalString Floats.SpecFloat.
From ExtLib Require Import Structures.Monad Structures.MonadExc.
Import ListNotations.
Import MonadNotation.

Set Implicit Arguments.
Local Open Scope string_scope.
Local Open Scope list_scope.
Local Open Scope monad_scope.

(** ** The JavaScript strings the component uses

    File names and media types are sequences of code units.  Only the
    letters [A]-[Z] and [a]-[z] are changed by the case conversions of
    this model; no other character of Unicode lower-cases to one of the
    letters of [.txt], [.pdf] or [.csv], so the comparison made by
    [validateFile] is not affected. *)
Module JS.

Definition is_upper (c : ascii) : bool :=
  (65 <=? nat_of_ascii c)%nat && (nat_of_ascii c <=? 90)%nat.

Definition is_lower (c : ascii) : bool :=
  (97 <=? nat_of_ascii c)%nat && (nat_of_ascii c <=? 122)%nat.

Definition is_digit (c : ascii) : bool :=
  (48 <=? nat_of_ascii c)%nat && (nat_of_ascii c <=? 57)%nat.

Definition lower_char (c : ascii) : ascii :=
  if is_upper c then ascii_of_nat (nat_of_ascii c + 32) else c.

Definition upper_char (c : ascii) : ascii :=
  if is_lower c then ascii_of_nat (nat_of_ascii c - 32) else c.

Fixpoint map_chars (f : ascii -> ascii) (s : string) : string :=
  match s with
  | EmptyString => EmptyString
  | String c rest => String (f c) (map_chars f rest)
  end.

(** [s.toLowerCase()] and [s.toUpperCase()].  A string is the sequence
    of the bytes of its UTF-8 text; the letters [A]-[Z] and [a]-[z] are
    converted and every other byte is kept.  JavaScript also converts
    letters outside ASCII, which is not modelled.  The component
    compares the lower-cased extension with ['pdf'], ['csv'], ['txt']
    and their dotted forms only, and JavaScript converts no letter
    outside ASCII into a letter of these words, so the comparisons come
    out as in the code; [toUpperCase] is applied to base-36 digits
    only. *)
Definition toLowerCase : string -> string := map_chars lower_char.
Definition toUpperCase : string -> string := map_chars upper_char.

(** [s.split(sep)] for a separator of one character: the pieces between
    the separators, in order; never the empty array. *)
Fixpoint split (sep : ascii) (s : string) : list string :=
  match s with
  | EmptyString => [EmptyString]
  | String c rest =>
      if Ascii.eqb c sep then EmptyString :: split sep rest
      else match split sep rest with
           | seg :: segs => String c seg :: segs
           | [] => [String c EmptyString]
           end
  end.

(** [a.pop()]: the last element, [undefined] ([None]) on the empty array. *)
Fixpoint pop (a : list string) : option string :=
  match a with
  | [] => None
  | [x] => Some x
  | _ :: rest => pop rest
  end.

(** ['.' + x] where [x] may be [undefined]: string concatenation turns
    [undefined] into the text "undefined". *)
Definition concat_undef (prefix : string) (x : option string) : string :=
  prefix ++ match x with Some s => s | None => "undefined" end.

(** [a.includes(x)] on an array of strings. *)
Definition includes (a : list string) (x : string) : bool :=
  existsb (String.eqb x) a.

(** [s.substr(start, len)]: at most [len] characters from index [start]. *)
Definition substr (start len : nat) (s : string) : string :=
  string_of_list_ascii (firstn len (skipn start (list_ascii_of_string s))).

(** [n.toString()] for a non-negative integer. *)
Definition num_toString (n : N) : string :=
  NilZero.string_of_uint (N.to_uint n).

(** Whether the character [c] occurs in [s]. *)
Fixpoint occurs (c : ascii) (s : string) : bool :=
  match s with
  | EmptyString => false
  | String d rest => Ascii.eqb d c || occurs c rest
  end.

End JS.

(** ** Files and queue entries *)

(** The part of a browser [File] the component reads. *)
Record File := mkFile {
  name : string;
  type : string;
  size : N
}.

(** The string literals of the [status] field. *)
Module Status.

Inductive t := pending | uploading | success | error.

Definition eqb (a b : t) : bool :=
  match a, b with
  | pending, pending | uploading, uploading
  | success, success | error, error => true
  | _, _ => false
  end.

End Status.

(** [interface UploadedFile]; the optional [error] field is [None] when the
    object has no such property. *)
Record UploadedFile := mkUploadedFile {
  file : File;
  id : string;
  status : Status.t;
  progress : Z;
  error : option string
}.

Definition Queue := list UploadedFile.

(** ** Validation *)

Definition allowedTypes : list string :=
  ["text/plain"; "application/pdf"; "text/csv"; "application/vnd.ms-excel"].

Definition allowedExtensions : list string := [".txt"; ".pdf"; ".csv"].

(** [const extension = '.' + file.name.split('.').pop()?.toLowerCase()] *)
Definition extension (f : File) : string :=
  JS.concat_undef "." (option_map JS.toLowerCase (JS.pop (JS.split "." (name f)))).

Definition validateFile (f : File) : bool :=
  JS.includes allowedTypes (type f) || JS.includes allowedExtensions (extension f).

(** ** What the runtime hands to the component *)

(** The value a [catch] clause receives: an [Error] object with its
    [message], or any other thrown value. *)
Inductive Thrown :=
| ErrorObject (message : string)
| OtherValue.

(** The part of a fetch [Response] the component reads. *)
Module Response.

Record t := make { status : N; statusText : string }.

(** [response.ok]: the status is in the range 200 to 299. *)
Definition ok (r : t) : bool := ((200 <=? status r) && (status r <=? 299))%N.

End Response.

(** A [FormData] object: its entries in the order of the [append] calls. *)
Inductive FormValue :=
| FileValue (f : File)
| TextValue (s : string).

Definition FormData := list (string * FormValue).

Definition append (key : string) (v : FormValue) (fd : FormData) : FormData :=
  fd ++ [(key, v)].

Fixpoint get (key : string) (fd : FormData) : option FormValue :=
  match fd with
  | [] => None
  | (k, v) :: rest => if String.eqb k key then Some v else get key rest
  end.

(** [Math.random().toString(36)].  A double of the interval [0, 1) prints
    in base 36 as [0] or as [0.] followed by its fraction digits, so a draw
    is given by these digits (none for the number 0). *)
Module Random.

Definition Draw := list N.

Definition base36 : string := "0123456789abcdefghijklmnopqrstuvwxyz".

Definition digit36 (d : N) : ascii :=
  match String.get (N.to_nat (d mod 36)) base36 with
  | Some c => c
  | None => "0"%char
  end.

Definition toString36 (d : Draw) : string :=
  match d with
  | [] => "0"
  | _ => "0." ++ string_of_list_ascii (map digit36 d)
  end.

End Random.

(** ** Programs of the component

    The effects of the component's functions: a draw of [Math.random], a
    call [setFiles(prev => ...)] with its updater, a line on the console, a
    call of an async function whose promise is dropped, a [throw], and
    the two [await]s of [uploadFile]. *)
Inductive Prog (A : Type) : Type :=
| Ret (a : A)
| Throw (e : Thrown)
| MathRandom (k : Random.Draw -> Prog A)
| SetFiles (updater : Queue -> Queue) (k : Prog A)
| Console (line : string) (k : Prog A)
| Call (callee : Prog unit) (k : Prog A)
| AwaitFetch (body : FormData) (k : Thrown + Response.t -> Prog A)
| AwaitText (r : Response.t) (k : Thrown + string -> Prog A).

Arguments Ret {A} a.
Arguments Throw {A} e.
Arguments MathRandom {A} k.
Arguments SetFiles {A} updater k.
Arguments Console {A} line k.
Arguments Call {A} callee k.
Arguments AwaitFetch {A} body k.
Arguments AwaitText {A} r k.

Fixpoint Prog_bind {A B : Type} (p : Prog A) (f : A -> Prog B) : Prog B :=
  match p with
  | Ret a => f a
  | Throw e => Throw e
  | MathRandom k => MathRandom (fun d => Prog_bind (k d) f)
  | SetFiles u k => SetFiles u (Prog_bind k f)
  | Console l k => Console l (Prog_bind k f)
  | Call c k => Call c (Prog_bind k f)
  | AwaitFetch b k => AwaitFetch b (fun o => Prog_bind (k o) f)
  | AwaitText r k => AwaitText r (fun o => Prog_bind (k o) f)
  end.

(** [try { p } catch (error) { handler(error) }].  The rejection of a
    callee that is not awaited does not reach the caller's [catch]. *)
Fixpoint Prog_catch {A : Type} (p : Prog A) (handler : Thrown -> Prog A) : Prog A :=
  match p with
  | Ret a => Ret a
  | Throw e => handler e
  | MathRandom k => MathRandom (fun d => Prog_catch (k d) handler)
  | SetFiles u k => SetFiles u (Prog_catch k handler)
  | Console l k => Console l (Prog_catch k handler)
  | Call c k => Call c (Prog_catch k handler)
  | AwaitFetch b k => AwaitFetch b (fun o => Prog_catch (k o) handler)
  | AwaitText r k => AwaitText r (fun o => Prog_catch (k o) handler)
  end.

#[global] Instance Monad_Prog : Monad Prog :=
  {| ret := @Ret; bind := @Prog_bind |}.

#[global] Instance MonadExc_Prog : MonadExc Thrown Prog :=
  {| raise := @Throw; catch := @Prog_catch |}.

Definition Math_random : Prog Random.Draw := MathRandom Ret.

Definition setFiles (updater : Queue -> Queue) : Prog unit :=
  SetFiles updater (Ret tt).

Definition console_log (line : string) : Prog unit := Console line (Ret tt).
Definition console_error (line : string) : Prog unit := Console line (Ret tt).

(** [await promise]: the value the promise resolves to, or a [throw] of
    what it rejects with. *)
Definition settled {A : Type} (o : Thrown + A) : Prog A :=
  match o with
  | inl e => Throw e
  | inr a => Ret a
  end.

Definition await_fetch (body : FormData) : Prog Response.t :=
  AwaitFetch body settled.

Definition await_text (r : Response.t) : Prog string :=
  AwaitText r settled.

(** A call [f(...)] of an async function whose promise is not used. *)
Definition call (callee : Prog unit) : Prog unit := Call callee (Ret tt).

Fixpoint forEach {A : Type} (f : A -> Prog unit) (l : list A) : Prog unit :=
  match l with
  | [] => ret tt
  | x :: rest => f x ;; forEach f rest
  end.

(** ** The component's functions *)

(** The three updaters [uploadFile] passes to [setFiles]: each maps over
    the queue and rewrites the entries whose [id] is that of the upload,
    spreading the other fields ([...f]). *)
Definition markUploading (i : string) (prev : Queue) : Queue :=
  map (fun f =>
         if String.eqb (id f) i
         then {| file := file f; id := id f; status := Status.uploading;
                 progress := 0; error := error f |}
         else f) prev.

Definition markSuccess (i : string) (prev : Queue) : Queue :=
  map (fun f =>
         if String.eqb (id f) i
         then {| file := file f; id := id f; status := Status.success;
                 progress := 100; error := error f |}
         else f) prev.

Definition markError (i : string) (message : string) (prev : Queue) : Queue :=
  map (fun f =>
         if String.eqb (id f) i
         then {| file := file f; id := id f; status := Status.error;
                 progress := 0; error := Some message |}
         else f) prev.

(** [error instanceof Error ? error.message : 'Upload failed'] *)
Definition message_of (e : Thrown) : string :=
  match e with
  | ErrorObject m => m
  | OtherValue => "Upload failed"
  end.

Definition userId (r : Random.Draw) : string :=
  "USR" ++ JS.toUpperCase (JS.substr 2 9 (Random.toString36 r)).

Definition uploadFile (uploadedFile : UploadedFile) : Prog unit :=
  r <- Math_random ;;
  let formData :=
    append "userId" (TextValue (userId r))
      (append "filetype" (TextValue (type (file uploadedFile)))
         (append "filesize" (TextValue (JS.num_toString (size (file uploadedFile))))
            (append "filename" (TextValue (name (file uploadedFile)))
               (append "data" (FileValue (file uploadedFile)) [])))) in
  catch
    (setFiles (markUploading (id uploadedFile)) ;;
     response <- await_fetch formData ;;
     (if negb (Response.ok response)
      then raise (ErrorObject ("Upload failed: "
                                 ++ JS.num_toString (Response.status response)
                                 ++ " " ++ Response.statusText response))
      else ret tt) ;;
     responseText <- await_text response ;;
     console_log ("Upload response: " ++ responseText) ;;
     setFiles (markSuccess (id uploadedFile)))
    (fun error =>
       console_error "Upload error:" ;;
       setFiles (markError (id uploadedFile) (message_of error))).

Definition new_entry (f : File) (r : Random.Draw) : UploadedFile :=
  {| file := f;
     id := JS.substr 2 9 (Random.toString36 r);
     status := Status.pending;
     progress := 0;
     error := None |}.

(** The loop [Array.from(fileList).forEach(file => ...)] of [handleFiles],
    pushing onto [newFiles]. *)
Fixpoint collect (fileList : list File) (newFiles : Queue) : Prog Queue :=
  match fileList with
  | [] => ret newFiles
  | f :: rest =>
      if validateFile f
      then r <- Math_random ;; collect rest (newFiles ++ [new_entry f r])
      else collect rest newFiles
  end.

Definition handleFiles (fileList : list File) : Prog unit :=
  newFiles <- collect fileList [] ;;
  setFiles (fun prev => prev ++ newFiles) ;;
  forEach (fun u => call (uploadFile u)) newFiles.

Definition removeFile (i : string) : Prog unit :=
  setFiles (fun prev => filter (fun f => negb (String.eqb (id f) i)) prev).

Definition retryUpload (uploadedFile : UploadedFile) : Prog unit :=
  call (uploadFile uploadedFile).

(** ** The event loop

    A [World] is what a page session holds between two turns of the event
    loop: the React state [files], the number of draws of [Math.random]
    made so far, and the async calls suspended at an [await].  [past]
    records the earlier values of [files], the latest first (it is read by
    no program). *)
Inductive Task :=
| AtFetch (body : FormData) (k : Thrown + Response.t -> Prog unit)
| AtText (r : Response.t) (k : Thrown + string -> Prog unit).

Record World := mkWorld {
  files : Queue;
  draws : nat;
  tasks : list Task;
  past : list Queue
}.

Definition init : World :=
  {| files := []; draws := 0; tasks := []; past := [] |}.

(** How a synchronous run of a program ends. *)
Inductive Halt :=
| Finished
| Uncaught (e : Thrown)
| Suspended (t : Task).

(** The updaters given to [setFiles] are applied in the order of the calls. *)
Definition set_files (updater : Queue -> Queue) (w : World) : World :=
  {| files := updater (files w); draws := draws w; tasks := tasks w;
     past := files w :: past w |}.

Definition next_draw (w : World) : World :=
  {| files := files w; draws := S (draws w); tasks := tasks w; past := past w |}.

(** An async call that stopped at an [await] waits among the tasks; one
    that ended, normally or by an uncaught [throw], leaves nothing. *)
Definition park (h : Halt) (w : World) : World :=
  match h with
  | Suspended t =>
      {| files := files w; draws := draws w; tasks := tasks w ++ [t];
         past := past w |}
  | _ => w
  end.

Definition drop_task (n : nat) (w : World) : World :=
  {| files := files w; draws := draws w;
     tasks := firstn n (tasks w) ++ skipn (S n) (tasks w); past := past w |}.

(** What the network answers to a suspended task. *)
Inductive Outcome :=
| Rejected (e : Thrown)
| Responded (r : Response.t)
| BodyRead (text : string).

Definition resume (t : Task) (o : Outcome) : option (Prog unit) :=
  match t, o with
  | AtFetch _ k, Rejected e => Some (k (inl e))
  | AtFetch _ k, Responded r => Some (k (inr r))
  | AtText _ k, Rejected e => Some (k (inl e))
  | AtText _ k, BodyRead s => Some (k (inr s))
  | _, _ => None
  end.

(** What the user and the network can do in one turn. *)
Inductive Input :=
| DropFiles (fileList : list File)
| ClickRemove (row : nat)
| ClickRetry (row : nat)
| Settle (task : nat) (o : Outcome).

Section EventLoop.

(** The successive values of [Math.random()] in the page session. *)
Variable random : nat -> Random.Draw.

(** A program runs without interruption up to its first [await]; the
    callee of an async call runs up to its own first [await] and the
    caller goes on. *)
Fixpoint run (p : Prog unit) (w : World) : World * Halt :=
  match p with
  | Ret _ => (w, Finished)
  | Throw e => (w, Uncaught e)
  | MathRandom k => run (k (random (draws w))) (next_draw w)
  | SetFiles updater k => run k (set_files updater w)
  | Console _ k => run k w
  | Call callee k => let (w', h) := run callee w in run k (park h w')
  | AwaitFetch body k => (w, Suspended (AtFetch body k))
  | AwaitText r k => (w, Suspended (AtText r k))
  end.

(** An event handler, or the continuation of a settled [await]. *)
Definition fire (p : Prog unit) (w : World) : World :=
  let (w', h) := run p w in park h w'.

(** One turn.  The buttons exist only on the rendered rows
    ([files.map]), and the Retry button only on a row whose status is
    ['error']. *)
Definition step (w : World) (i : Input) : option World :=
  match i with
  | DropFiles fileList => Some (fire (handleFiles fileList) w)
  | ClickRemove row =>
      match nth_error (files w) row with
      | Some u => Some (fire (removeFile (id u)) w)
      | None => None
      end
  | ClickRetry row =>
      match nth_error (files w) row with
      | Some u =>
          match status u with
          | Status.error => Some (fire (retryUpload u) w)
          | _ => None
          end
      | None => None
      end
  | Settle n o =>
      match nth_error (tasks w) n with
      | Some t =>
          match resume t o with
          | Some p => Some (fire p (drop_task n w))
          | None => None
          end
      | None => None
      end
  end.

Fixpoint exec (inputs : list Input) (w : World) : option World :=
  match inputs with
  | [] => Some w
  | i :: rest =>
      match step w i with
      | Some w' => exec rest w'
      | None => None
      end
  end.

End EventLoop.

(** The id of a new entry and the [userId] of a request are cut from a draw. *)
Definition id_of (r : Random.Draw) : string :=
  JS.substr 2 9 (Random.toString36 r).

Definition string_in (x : string) (l : list string) : bool :=
  existsb (String.eqb x) l.

Fixpoint distinct (l : list string) : bool :=
  match l with
  | [] => true
  | x :: rest => negb (string_in x rest) && distinct rest
  end.

(** The first [n] draws of the session cut into pairwise different ids. *)
Definition distinct_ids (random : nat -> Random.Draw) (n : nat) : bool :=
  distinct (map (fun k => id_of (random k)) (seq 0 n)).

(** ** The summary the component renders

    JavaScript numbers are IEEE 754 doubles: [a / b] and [a * b] round to
    the nearest double, and [Math.round] gives the nearest integer, the
    larger one at a tie. *)
Module Double.

Definition prec : Z := 53.
Definition emax : Z := 1024.

Definition of_nat (n : nat) : spec_float :=
  binary_normalize prec emax (Z.of_nat n) 0 false.

Definition of_Z (z : Z) : spec_float :=
  binary_normalize prec emax z 0 false.

Definition div : spec_float -> spec_float -> spec_float := SFdiv prec emax.
Definition mul : spec_float -> spec_float -> spec_float := SFmul prec emax.

Definition Math_round (x : spec_float) : spec_float :=
  match x with
  | S754_finite s m e =>
      if (0 <=? e)%Z then x
      else
        let v := if s then Z.neg m else Z.pos m in
        binary_normalize prec emax ((2 * v + 2 ^ (- e)) / 2 ^ (1 - e))%Z 0 s
  | _ => x
  end.

End Double.

(** [files.filter(f => f.status === 'success').length] *)
Definition succeeded (fs : Queue) : nat :=
  length (filter (fun f => Status.eqb (status f) Status.success) fs).

(** [Math.round((files.filter(...).length / files.length) * 100)] *)
Definition percentComplete (fs : Queue) : spec_float :=
  Double.Math_round
    (Double.mul
       (Double.div (Double.of_nat (succeeded fs)) (Double.of_nat (length fs)))
       (Double.of_nat 100)).

Record Summary := mkSummary {
  summary_succeeded : nat;
  summary_total : nat;
  summary_percent : spec_float
}.

(** The block under [files.length > 0 && (...)]: nothing of it is
    evaluated for the empty queue. *)
Definition summary (fs : Queue) : option Summary :=
  if (0 <? length fs)%nat
  then Some {| summary_succeeded := succeeded fs;
               summary_total := length fs;
               summary_percent := percentComplete fs |}
  else None.

(** ** The specification's words

    Definitions that follow the specification, to be compared with the
    code above. *)

(** The substring after the last ['.'] of a name; the whole name when it
    has none. *)
Fixpoint after_last_dot (s : string) : string :=
  match s with
  | EmptyString => EmptyString
  | String c rest =>
      if JS.occurs "." rest then after_last_dot rest
      else if Ascii.eqb c "." then rest
      else s
  end.


(** The transitions of the state machine of a single entry. *)
Definition edge (a b : Status.t) : bool :=
  match a, b with
  | Status.pending, Status.uploading
  | Status.uploading, Status.success
  | Status.uploading, Status.error
  | Status.error, Status.uploading => true
  | _, _ => false
  end.

(** An entry keeps its file and id, and its status stays or follows an edge. *)
Definition entry_step (e e' : UploadedFile) : Prop :=
  file e' = file e /\ id e' = id e /\
  (status e' = status e \/ edge (status e) (status e') = true).

(** One update of the queue: new pending entries at its end, the removal
    of the entries of one id, or a change of status in place. *)
Definition queue_step (q q' : Queue) : Prop :=
  (exists new, q' = q ++ new /\ Forall (fun e => status e = Status.pending) new)
  \/ (exists i, q' = filter (fun f => negb (String.eqb (id f) i)) q)
  \/ Forall2 entry_step q q'.

(** A history, its latest queue first, all of whose updates are steps. *)
Fixpoint lawful (history : list Queue) : Prop :=
  match history with
  | q' :: ((q :: _) as earlier) => queue_step q q' /\ lawful earlier
  | _ => True
  end.

(** The part of the state machine that concerns a pending entry: it
    stays pending or becomes uploading. *)
Definition from_pending (e e' : UploadedFile) : Prop :=
  status e = Status.pending ->
  status e' = Status.pending \/ status e' = Status.uploading.

Definition queue_step_from_pending (q q' : Queue) : Prop :=
  (exists new, q' = q ++ new)
  \/ (exists i, q' = filter (fun f => negb (String.eqb (id f) i)) q)
  \/ Forall2 from_pending q q'.

Fixpoint lawful_from_pending (history : list Queue) : Prop :=
  match history with
  | q' :: ((q :: _) as earlier) =>
      queue_step_from_pending q q' /\ lawful_from_pending earlier
  | _ => True
  end.

Definition lower_alnum (c : ascii) : bool := JS.is_lower c || JS.is_digit c.
Definition upper_alnum (c : ascii) : bool := JS.is_upper c || JS.is_digit c.

Definition all_chars (p : ascii -> bool) (s : string) : bool :=
  forallb p (list_ascii_of_string s).

(** [USR] followed by exactly 9 lowercase alphanumeric characters. *)
Definition spec_userId_format (s : string) : bool :=
  String.eqb (substring 0 3 s) "USR"
  && (String.length s =? 12)%nat
  && all_chars lower_alnum (substring 3 9 s).

(** The progress an entry of a given status has, and when it has an
    error message, according to the data model. *)
Definition progress_ok (e : UploadedFile) : Prop :=
  (progress e = 100%Z <-> status e = Status.success)
  /\ (status e = Status.uploading \/ status e = Status.error -> progress e = 0%Z).

Definition error_iff_status (e : UploadedFile) : Prop :=
  error e <> None <-> status e = Status.error.

(** ** Notions for the proofs

    What the proofs below say of suspended uploads, of the entries
    [handleFiles] makes, and of a session as a whole. *)

Section Notions.

Variable random : nat -> Random.Draw.

(** A program that ends by marking the entries of id [i] failed or
    succeeded. *)
Definition ends_with (i : string) (p : Prog unit) : Prop :=
  (exists m, forall w, run random p w = (set_files (markError i m) w, Finished))
  \/ (forall w, run random p w = (set_files (markSuccess i) w, Finished)).

(** The two places where an upload of the entries of id [i] waits. *)
Definition text_task (i : string) (t : Task) : Prop :=
  exists r k, t = AtText r k /\ forall o, ends_with i (k o).

Definition fetch_task (i : string) (t : Task) : Prop :=
  exists body k,
    t = AtFetch body k
    /\ forall o,
        ends_with i (k o)
        \/ exists t', text_task i t'
                      /\ forall w, run random (k o) w = (w, Suspended t').

Definition upload_task (i : string) (t : Task) : Prop :=
  fetch_task i t \/ text_task i t.

(** The entries [handleFiles] makes of a file list when [n] draws were
    made before: one draw for each file that passes validation. *)
Fixpoint drawn (fileList : list File) (n : nat) : Queue :=
  match fileList with
  | [] => []
  | f :: rest =>
      if validateFile f then new_entry f (random n) :: drawn rest (S n)
      else drawn rest n
  end.

Definition add_draws (k : nat) (w : World) : World :=
  {| files := files w; draws := k + draws w; tasks := tasks w; past := past w |}.

Definition start_all (us : Queue) (w : World) : World :=
  fold_left (fun w u => fire random (uploadFile u) w) us w.

Definition owned (ts : list Task) : Prop :=
  exists owners, Forall2 upload_task owners ts.

Definition sound (P : UploadedFile -> Prop) (w : World) : Prop :=
  owned (tasks w) /\ Forall (Forall P) (files w :: past w).

(** Between two turns no entry is pending, and so far no pending entry
    went anywhere but to uploading. *)
Definition settled_world (w : World) : Prop :=
  owned (tasks w)
  /\ Forall (fun e => status e <> Status.pending) (files w)
  /\ lawful_from_pending (files w :: past w).

(** The id [i] was cut from one of the first [n] draws. *)
Definition issued (i : string) (n : nat) : Prop :=
  exists k, k < n /\ i = id_of (random k).

(** The ids of the queue are pairwise different; the suspended uploads
    belong to pairwise different ids [owners], and the entries of these
    ids are uploading; every id in use was drawn; and every update of the
    queue so far was a step of the state machine. *)
Record coherent (w : World) (owners : list string) : Prop := mkCoherent {
  coh_tasks : Forall2 upload_task owners (tasks w);
  coh_ids : NoDup (map id (files w));
  coh_owners : NoDup owners;
  coh_uploading :
    forall e, In e (files w) -> In (id e) owners -> status e = Status.uploading;
  coh_issued_files : forall e, In e (files w) -> issued (id e) (draws w);
  coh_issued_owners : forall i, In i owners -> issued i (draws w);
  coh_lawful : lawful (files w :: past w)
}.

End Notions.

(** The bodies of the requests that wait for their response. *)
Definition requests (w : World) : list FormData :=
  flat_map (fun t => match t with AtFetch body _ => [body] | AtText _ _ => [] end)
    (tasks w).

(** The integer a double is, when it is one. *)
Definition integer_of (x : spec_float) : option Z :=
  match x with
  | S754_zero _ => Some 0%Z
  | S754_finite s m e =>
      let v := if s then Z.neg m else Z.pos m in
      if (0 <=? e)%Z then Some (v * 2 ^ e)%Z
      else if (v mod 2 ^ (- e) =? 0)%Z then Some (v / 2 ^ (- e))%Z
      else None
  | _ => None
  end.

Definition percent_of (s t : nat) : spec_float :=
  Double.Math_round
    (Double.mul (Double.div (Double.of_nat s) (Double.of_nat t)) (Double.of_nat 100)).




(** ** A page session to run the component on *)

Module Demo.

Definition report : File := mkFile "report.pdf" "application/pdf" 2048.
Definition table : File := mkFile "table.csv" "text/csv" 512.
Definition setup : File := mkFile "setup.exe" "application/x-msdownload" 4096.

Definition server_error : Response.t := Response.make 500 "Internal Server Error".
Definition accepted : Response.t := Response.make 200 "OK".

(** Draws that differ in their first digit: [0.0fzyo82mvyr],
    [0.1fzyo82mvyr], and so on. *)
Definition random (n : nat) : Random.Draw :=
  (N.of_nat n :: [15; 35; 34; 24; 8; 2; 22; 31; 34; 27])%N.

(** The same draws, but the third one repeats the first. *)
Definition repeating (n : nat) : Random.Draw :=
  match n with
  | 2 => random 0
  | _ => random n
  end.

(** A failed upload, retried with success, beside a second upload still
    in flight; the executable is not admitted. *)
Definition session : list Input :=
  [ DropFiles [report; setup; table];
    Settle 0 (Responded server_error);
    ClickRetry 0;
    Settle 1 (Responded accepted);
    Settle 1 (BodyRead "done") ].

Definition final : World :=
  match exec random session init with
  | Some w => w
  | None => init
  end.

(** Two drops of one file each, the first upload completed before the
    second drop. *)
Definition two_drops : list Input :=
  [ DropFiles [report];
    Settle 0 (Responded accepted);
    Settle 0 (BodyRead "done");
    DropFiles [table] ].

End Demo.

(** ** The rest of the component

    The icon of a row, the parts of a row that are rendered under a
    condition, and the handlers of the drop zone and of the file input
    with the [isDragging] state. *)

(** The four elements [getFileIcon] can return. *)
Inductive Icon :=
| FileRed
| SpreadsheetGreen
| TextBlue
| FileGray.

(** [getFileIcon]: a [switch] on
    [file.name.split('.').pop()?.toLowerCase()]. *)
Definition getFileIcon (f : File) : Icon :=
  match option_map JS.toLowerCase (JS.pop (JS.split "." (name f))) with
  | Some e =>
      if String.eqb e "pdf" then FileRed
      else if String.eqb e "csv" then SpreadsheetGreen
      else if String.eqb e "txt" then TextBlue
      else FileGray
  | None => FileGray
  end.

(** [uploadedFile.status === 'uploading' && (... width: progress% ...)]:
    the width of the bar of a row, when the row has one. *)
Definition progressBar (u : UploadedFile) : option Z :=
  match status u with
  | Status.uploading => Some (progress u)
  | _ => None
  end.

(** [uploadedFile.error && (<p>...)]: the error text of a row; the empty
    string is falsy and shows nothing. *)
Definition errorText (u : UploadedFile) : option string :=
  match error u with
  | Some EmptyString => None
  | Some m => Some m
  | None => None
  end.

(** The element shown for the status of a row. *)
Inductive Badge :=
| PendingBadge
| UploadingBadge
| SuccessBadge
| RetryButton.

Definition badge (u : UploadedFile) : Badge :=
  match status u with
  | Status.pending => PendingBadge
  | Status.uploading => UploadingBadge
  | Status.success => SuccessBadge
  | Status.error => RetryButton
  end.

(** The state of the component: the queue with what hangs on it, and
    [isDragging]. *)
Record Page := mkPage {
  world : World;
  isDragging : bool
}.

(** What the drop zone and the file input can receive.  A drop and a
    change of the input carry a file list or none
    ([e.dataTransfer.files], [e.target.files]); [Turn] is any other turn
    of the event loop. *)
Inductive UIEvent :=
| DragOver
| DragLeave
| Drop (fileList : option (list File))
| Change (fileList : option (list File))
| Turn (i : Input).

Section Handlers.

Variable random : nat -> Random.Draw.

(** [e.preventDefault(); setIsDragging(true)] *)
Definition handleDragOver (p : Page) : Page :=
  {| world := world p; isDragging := true |}.

(** [e.preventDefault(); setIsDragging(false)] *)
Definition handleDragLeave (p : Page) : Page :=
  {| world := world p; isDragging := false |}.

(** [e.preventDefault(); setIsDragging(false);
    if (e.dataTransfer.files) handleFiles(e.dataTransfer.files)] *)
Definition handleDrop (fileList : option (list File)) (p : Page) : Page :=
  match fileList with
  | Some fl =>
      {| world := fire random (handleFiles fl) (world p); isDragging := false |}
  | None => {| world := world p; isDragging := false |}
  end.

(** [if (e.target.files) handleFiles(e.target.files)] *)
Definition handleFileInputChange (fileList : option (list File)) (p : Page) : Page :=
  match fileList with
  | Some fl =>
      {| world := fire random (handleFiles fl) (world p);
         isDragging := isDragging p |}
  | None => p
  end.

Definition step_page (p : Page) (ev : UIEvent) : option Page :=
  match ev with
  | DragOver => Some (handleDragOver p)
  | DragLeave => Some (handleDragLeave p)
  | Drop fl => Some (handleDrop fl p)
  | Change fl => Some (handleFileInputChange fl p)
  | Turn i =>
      match step random (world p) i with
      | Some w => Some {| world := w; isDragging := isDragging p |}
      | None => None
      end
  end.

Fixpoint exec_page (events : list UIEvent) (p : Page) : option Page :=
  match events with
  | [] => Some p
  | ev :: rest =>
      match step_page p ev with
      | Some p' => exec_page rest p'
      | None => None
      end
  end.

End Handlers.

(** The turns of the event loop that a list of events amounts to for the
    queue. *)
Fixpoint queue_inputs (events : list UIEvent) : list Input :=
  match events with
  | [] => []
  | Drop (Some fl) :: rest => DropFiles fl :: queue_inputs rest
  | Change (Some fl) :: rest => DropFiles fl :: queue_inputs rest
  | Turn i :: rest => i :: queue_inputs rest
  | _ :: rest => queue_inputs rest
  end.

(** The [FormData] that [uploadFile] builds for a file and a draw. *)
Definition upload_body (f : File) (r : Random.Draw) : FormData :=
  [ ("data", FileValue f);
    ("filename", TextValue (name f));
    ("filesize", TextValue (JS.num_toString (size f)));
    ("filetype", TextValue (type f));
    ("userId", TextValue (userId r)) ].

(** A history, its latest queue first, whose updates are all in [R]. *)
Fixpoint chain (R : Queue -> Queue -> Prop) (history : list Queue) : Prop :=
  match history with
  | q' :: ((q :: _) as earlier) => R q q' /\ chain R earlier
  | _ => True
  end.

(** Two queues with the same files and ids at the same places. *)
Definition same_keys (q q' : Queue) : Prop :=
  Forall2 (fun e e' => file e' = file e /\ id e' = id e) q q'.

(** Two characters that are equal, or the upper-case and the lower-case
    form of one of the letters [A]-[Z], by their codes. *)
Definition same_letter (c d : ascii) : bool :=
  Ascii.eqb c d
  || (JS.is_upper c && (nat_of_ascii d =? nat_of_ascii c + 32)%nat)
  || (JS.is_upper d && (nat_of_ascii c =? nat_of_ascii d + 32)%nat).

(** Two names that differ in the case of letters [A]-[Z] only. *)
Fixpoint same_up_to_case (s t : string) : bool :=
  match s, t with
  | EmptyString, EmptyString => true
  | String c s', String d t' => same_letter c d && same_up_to_case s' t'
  | _, _ => false
  end.

(** Every character. *)
Definition all_ascii : list ascii := map ascii_of_nat (seq 0 256).


(** Every entry that is uploading has an upload in flight. *)
Definition uploads_in_flight (random : nat -> Random.Draw) (w : World) : Prop :=
  exists owners,
    Forall2 (upload_task random) owners (tasks w)
    /\ forall e, In e (files w) -> status e = Status.uploading ->
                 In (id e) owners.

(** The percentage shown for [s] of [t] is 100 only when [s = t], and 0
    only when [s = 0]. *)
Definition ends_exact (s t : nat) : bool :=
  match integer_of (percent_of s t) with
  | Some p =>
      Bool.eqb (p =? 100)%Z (s =? t)%nat && Bool.eqb (p =? 0)%Z (s =? 0)%nat
  | None => false
  end.

Module Demo2.

Definition idle_session : list Input :=
  [ DropFiles [Demo.report; Demo.setup; Demo.table];
    Settle 0 (Responded Demo.server_error);
    Settle 0 (Responded Demo.accepted);
    Settle 0 (BodyRead "done") ].

Definition idle : World :=
  match exec Demo.random idle_session init with
  | Some w => w
  | None => init
  end.

(** An upload in flight. *)
Definition started : World :=
  match exec Demo.random [DropFiles [Demo.report]] init with
  | Some w => w
  | None => init
  end.

(** A failed upload, and the click on its Retry button. *)
Definition failed : World :=
  match exec Demo.random
          [DropFiles [Demo.report]; Settle 0 (Responded Demo.server_error)] init with
  | Some w => w
  | None => init
  end.

Definition retried : World :=
  match step Demo.random failed (ClickRetry 0) with
  | Some w => w
  | None => init
  end.

Definition removed : World :=
  match step Demo.random Demo.final (ClickRemove 1) with
  | Some w => w
  | None => init
  end.

(** The page after some dragging, a drop and a change of the input. *)
Definition events : list UIEvent :=
  [ DragOver; DragLeave; DragOver; Drop (Some [Demo.report]); Change None;
    Turn (Settle 0 (Rejected OtherValue)); Change (Some [Demo.table]) ].

End Demo2.

(** A session of forty files of which seventeen fail and twenty-three
    succeed. *)
Module Demo3.

(** Draws that differ in their first two digits. *)
Definition random (n : nat) : Random.Draw :=
  (N.of_nat (n / 36) :: N.of_nat (n mod 36) :: [35; 34; 24; 8; 2; 22; 31; 34; 27])%N.

Definition session : list Input :=
  DropFiles (repeat Demo.report 40)
    :: repeat (Settle 0 (Responded Demo.server_error)) 17
    ++ repeat (Settle 0 (Responded Demo.accepted)) 23
    ++ repeat (Settle 0 (BodyRead "done")) 23.

End Demo3.

(** * Properties *)

(** ** Strings and validation *)

Lemma includes_In (l : list string) (x : string) :
  JS.includes l x = true <-> In x l.
Proof.
  unfold JS.includes. rewrite existsb_exists. split.
  - intros [y [Hy Heq]]. apply String.eqb_eq in Heq. now subst.
  - intros H. exists x. split; [assumption | apply String.eqb_refl].
Qed.

Lemma split_without_sep (sep : ascii) (s : string) :
  JS.occurs sep s = false -> JS.split sep s = [s].
Proof.
  induction s as [| c rest IH]; simpl; intros H; [reflexivity |].
  apply orb_false_elim in H. destruct H as [Hc Hrest].
  rewrite Hc, (IH Hrest). reflexivity.
Qed.

Lemma split_with_sep (sep : ascii) (s : string) :
  JS.occurs sep s = true ->
  exists seg seg' segs, JS.split sep s = seg :: seg' :: segs.
Proof.
  induction s as [| c rest IH]; simpl; intros H; [discriminate |].
  destruct (Ascii.eqb c sep) eqn:Hc; simpl in H.
  - destruct (JS.occurs sep rest) eqn:Hrest.
    + destruct (IH eq_refl) as (a & b & l & E). rewrite E. eauto.
    + rewrite (split_without_sep _ _ Hrest). eauto.
  - destruct (IH H) as (a & b & l & E). rewrite E. eauto.
Qed.

Lemma after_last_dot_without_dot (s : string) :
  JS.occurs "." s = false -> after_last_dot s = s.
Proof.
  destruct s as [| c rest]; simpl; intros H; [reflexivity |].
  apply orb_false_elim in H. destruct H as [Hc Hrest].
  now rewrite Hrest, Hc.
Qed.

(** The last piece of [name.split('.')] is the substring after the last
    ['.'], and [pop] never finds the array empty. *)
Lemma pop_split (s : string) :
  JS.pop (JS.split "." s) = Some (after_last_dot s).
Proof.
  induction s as [| c rest IH]; [reflexivity |].
  cbn [JS.split after_last_dot].
  destruct (JS.occurs "." rest) eqn:Hrest.
  - destruct (split_with_sep _ _ Hrest) as (a & b & l & E).
    rewrite E in IH |- *.
    destruct (Ascii.eqb c "."); cbn [JS.pop] in IH |- *; exact IH.
  - rewrite (split_without_sep _ _ Hrest).
    destruct (Ascii.eqb c "."); reflexivity.
Qed.

Lemma extension_after_last_dot (f : File) :
  extension f = ("." ++ JS.toLowerCase (after_last_dot (name f)))%string.
Proof. unfold extension. now rewrite pop_split. Qed.

Lemma validateFile_spec (f : File) :
  validateFile f = true <->
  In (type f) allowedTypes
  \/ In ("." ++ JS.toLowerCase (after_last_dot (name f)))%string allowedExtensions.
Proof.
  unfold validateFile. rewrite orb_true_iff, !includes_In.
  now rewrite extension_after_last_dot.
Qed.

(** C10: for a name without ['.'] the extension is ['.'] and the whole
    name in lower case, so the file is accepted exactly when its name is
    [txt], [pdf] or [csv] up to case, or its media type is allowed; and
    for every name, the empty one too, [pop] yields a piece, so
    [toLowerCase] is never applied to [undefined]. *)
Theorem validateFile_without_dot (f : File) :
  JS.occurs "." (name f) = false ->
  extension f = ("." ++ JS.toLowerCase (name f))%string
  /\ (validateFile f = true <->
      In (JS.toLowerCase (name f)) ["txt"; "pdf"; "csv"]
      \/ In (type f) allowedTypes)
  /\ (forall g : File, exists piece,
        JS.pop (JS.split "." (name g)) = Some piece
        /\ extension g = ("." ++ JS.toLowerCase piece)%string).
Proof.
  intros Hdot. split; [| split].
  - now rewrite extension_after_last_dot, after_last_dot_without_dot.
  - rewrite validateFile_spec, after_last_dot_without_dot by assumption.
    unfold allowedExtensions. simpl In.
    split; intros H.
    + destruct H as [H | H]; [now right | left].
      repeat (destruct H as [H | H]; [injection H as H; rewrite <- H; simpl; tauto |]).
      contradiction.
    + destruct H as [H | H]; [right | now left].
      repeat (destruct H as [H | H]; [rewrite <- H; simpl; tauto |]).
      contradiction.
  - intros g. exists (after_last_dot (name g)). split.
    + apply pop_split.
    + apply extension_after_last_dot.
Qed.

Lemma validateFile_without_dot_witness :
  JS.occurs "." (name (mkFile "CSV" EmptyString 3)) = false
  /\ extension (mkFile "CSV" EmptyString 3) = ".csv"
  /\ validateFile (mkFile "CSV" EmptyString 3) = true.
Proof.
  pose proof (validateFile_without_dot (mkFile "CSV" EmptyString 3) eq_refl)
    as [Hext [Hval _]].
  split; [reflexivity | split].
  - exact Hext.
  - apply Hval. left. simpl. tauto.
Defined.

(** ** Runs of the component's programs *)

Section Runs.

Variable random : nat -> Random.Draw.

Lemma add_draws_next (k : nat) (w : World) :
  add_draws k (next_draw w) = add_draws (S k) w.
Proof. unfold add_draws, next_draw. simpl. f_equal. lia. Qed.

Lemma add_draws_0 (w : World) : add_draws 0 w = w.
Proof. now destruct w. Qed.

Lemma run_collect (fileList : list File) :
  forall (acc : Queue) (K : Queue -> Prog unit) (w : World),
    run random (Prog_bind (collect fileList acc) K) w
    = run random (K (acc ++ drawn random fileList (draws w)))
        (add_draws (length (drawn random fileList (draws w))) w).
Proof.
  induction fileList as [| f rest IH]; intros acc K w; simpl.
  - now rewrite app_nil_r, add_draws_0.
  - destruct (validateFile f); simpl.
    + rewrite IH. simpl. rewrite <- app_assoc. simpl.
      now rewrite add_draws_next.
    + apply IH.
Qed.

Lemma run_forEach_upload (us : Queue) :
  forall w,
    run random (forEach (fun u => call (uploadFile u)) us) w
    = (start_all random us w, Finished).
Proof.
  induction us as [| u rest IH]; intros w; [reflexivity |].
  unfold start_all. cbn [forEach fold_left].
  change (run random (Call (uploadFile u) (forEach (fun u => call (uploadFile u)) rest)) w
          = (fold_left (fun w u => fire random (uploadFile u) w) rest
               (fire random (uploadFile u) w), Finished)).
  cbn [run]. unfold fire at 2.
  destruct (run random (uploadFile u) w) as [w' h]. apply IH.
Qed.

(** [handleFiles]: the draws of the ids, the append, then the start of
    one upload for each new entry. *)
Lemma run_handleFiles (fileList : list File) (w : World) :
  run random (handleFiles fileList) w
  = (start_all random (drawn random fileList (draws w))
       (set_files (fun prev => prev ++ drawn random fileList (draws w))
          (add_draws (length (drawn random fileList (draws w))) w)),
     Finished).
Proof.
  change (run random
            (Prog_bind (collect fileList [])
               (fun newFiles =>
                  SetFiles (fun prev => prev ++ newFiles)
                    (forEach (fun u => call (uploadFile u)) newFiles))) w
          = (start_all random (drawn random fileList (draws w))
               (set_files (fun prev => prev ++ drawn random fileList (draws w))
                  (add_draws (length (drawn random fileList (draws w))) w)),
             Finished)).
  rewrite run_collect. cbn [app run].
  now rewrite run_forEach_upload.
Qed.

Lemma fire_handleFiles (fileList : list File) (w : World) :
  fire random (handleFiles fileList) w
  = start_all random (drawn random fileList (draws w))
      (set_files (fun prev => prev ++ drawn random fileList (draws w))
         (add_draws (length (drawn random fileList (draws w))) w)).
Proof. unfold fire. now rewrite run_handleFiles. Qed.

Lemma fire_removeFile (i : string) (w : World) :
  fire random (removeFile i) w
  = set_files (fun prev => filter (fun f => negb (String.eqb (id f) i)) prev) w.
Proof. reflexivity. Qed.

(** The synchronous part of [uploadFile]: one draw, the entries of the
    id marked as uploading, then the wait for the response. *)
Lemma run_uploadFile (u : UploadedFile) (w : World) :
  exists t,
    run random (uploadFile u) w
    = (set_files (markUploading (id u)) (next_draw w), Suspended t)
    /\ fetch_task random (id u) t.
Proof.
  eexists. split; [reflexivity |].
  unfold fetch_task. do 2 eexists. split; [reflexivity |].
  intros [e | r].
  - left. left. exists (message_of e). intros w0. reflexivity.
  - cbn. destruct (Response.ok r); cbn.
    + right. eexists. split; [| intros w0; reflexivity].
      unfold text_task. do 2 eexists. split; [reflexivity |].
      intros [e | s]; [left | right].
      * exists (message_of e). intros w0. reflexivity.
      * intros w0. reflexivity.
    + left. left. eexists. intros w0. reflexivity.
Qed.

Lemma fire_uploadFile (u : UploadedFile) (w : World) :
  exists t,
    fire random (uploadFile u) w
    = park (Suspended t) (set_files (markUploading (id u)) (next_draw w))
    /\ fetch_task random (id u) t.
Proof.
  destruct (run_uploadFile u w) as (t & Hrun & Ht).
  exists t. split; [| exact Ht]. unfold fire. now rewrite Hrun.
Qed.

Lemma fire_retryUpload (u : UploadedFile) (w : World) :
  fire random (retryUpload u) w = fire random (uploadFile u) w.
Proof.
  unfold retryUpload, call, fire at 1. cbn [run].
  unfold fire. destruct (run random (uploadFile u) w) as [w' h].
  reflexivity.
Qed.

(** What the settling of the awaited promise of an upload does. *)
Lemma run_resumed (i : string) (t : Task) (o : Outcome) (p : Prog unit) (w : World) :
  upload_task random i t -> resume t o = Some p ->
  (exists m, run random p w = (set_files (markError i m) w, Finished))
  \/ run random p w = (set_files (markSuccess i) w, Finished)
  \/ (exists t', text_task random i t' /\ run random p w = (w, Suspended t')).
Proof.
  intros [(body & k & -> & Hk) | (r & k & -> & Hk)] Hres.
  - assert (Hp : exists x, p = k x).
    { destruct o; simpl in Hres; inversion Hres; eauto. }
    destruct Hp as [x ->].
    destruct (Hk x) as [[[m Hm] | Hs] | (t' & Ht' & Hrun)]; eauto.
  - assert (Hp : exists x, p = k x).
    { destruct o; simpl in Hres; inversion Hres; eauto. }
    destruct Hp as [x ->].
    destruct (Hk x) as [[m Hm] | Hs]; eauto.
Qed.

Lemma fire_resumed (i : string) (t : Task) (o : Outcome) (p : Prog unit) (w : World) :
  upload_task random i t -> resume t o = Some p ->
  (exists m, fire random p w = set_files (markError i m) w)
  \/ fire random p w = set_files (markSuccess i) w
  \/ (exists t', text_task random i t' /\ fire random p w = park (Suspended t') w).
Proof.
  intros Ht Hres. unfold fire.
  destruct (run_resumed o w Ht Hres) as [[m ->] | [-> | (t' & Ht' & ->)]].
  - left. now exists m.
  - right. now left.
  - right. right. now exists t'.
Qed.

End Runs.

(** ** Lists *)

Lemma Forall2_drop {A B : Type} (R : A -> B -> Prop) (l1 : list A) (l2 : list B) :
  Forall2 R l1 l2 ->
  forall n, Forall2 R (firstn n l1 ++ skipn (S n) l1) (firstn n l2 ++ skipn (S n) l2).
Proof.
  induction 1 as [| a b l1 l2 Hab Hl IH]; intros n.
  - destruct n; constructor.
  - destruct n as [| n]; simpl.
    + exact Hl.
    + constructor; [exact Hab | apply IH].
Qed.

Lemma Forall2_nth_error {A B : Type} (R : A -> B -> Prop) (l1 : list A) (l2 : list B) :
  Forall2 R l1 l2 ->
  forall n b, nth_error l2 n = Some b ->
  exists a, nth_error l1 n = Some a /\ R a b.
Proof.
  induction 1 as [| a b l1 l2 Hab Hl IH]; intros n x Hn.
  - destruct n; discriminate.
  - destruct n as [| n]; simpl in *.
    + injection Hn as <-. eauto.
    + eauto.
Qed.

Lemma In_drop {A : Type} (l : list A) (n : nat) (x : A) :
  In x (firstn n l ++ skipn (S n) l) -> In x l.
Proof.
  revert n. induction l as [| a l IH]; intros n H.
  - destruct n; simpl in H; contradiction.
  - destruct n as [| n]; simpl in H.
    + now right.
    + destruct H as [H | H]; [now left | right; eauto].
Qed.

Lemma NoDup_drop {A : Type} (l : list A) :
  NoDup l ->
  forall n a, nth_error l n = Some a ->
  NoDup (firstn n l ++ skipn (S n) l) /\ ~ In a (firstn n l ++ skipn (S n) l).
Proof.
  induction 1 as [| x l Hx Hl IH]; intros n a Hn.
  - destruct n; discriminate.
  - destruct n as [| n]; simpl in *.
    + injection Hn as <-. now split.
    + destruct (IH n a Hn) as [Hnd Hnot]. split.
      * constructor; [| exact Hnd]. intros Hin. apply Hx. eapply In_drop; eauto.
      * intros [-> | Hin]; [| now apply Hnot].
        apply Hx. eapply nth_error_In; eauto.
Qed.

(** ** What holds of every entry at all times *)

Section EntryInvariant.

Variable random : nat -> Random.Draw.

(** A property of entries that the creation of an entry establishes and
    the three updaters of [uploadFile] keep. *)
Variable P : UploadedFile -> Prop.

Hypothesis P_new : forall f r, P (new_entry f r).

Hypothesis P_uploading : forall e,
  P e ->
  P {| file := file e; id := id e; status := Status.uploading;
       progress := 0; error := error e |}.

Hypothesis P_success : forall e,
  P e ->
  P {| file := file e; id := id e; status := Status.success;
       progress := 100; error := error e |}.

Hypothesis P_error : forall e m,
  P e ->
  P {| file := file e; id := id e; status := Status.error;
       progress := 0; error := Some m |}.

Lemma sound_set_files (updater : Queue -> Queue) (w : World) :
  (forall q, Forall P q -> Forall P (updater q)) ->
  sound random P w -> sound random P (set_files updater w).
Proof.
  intros Hupd [Hown Hall]. split; [exact Hown |].
  simpl. constructor; [| exact Hall].
  apply Hupd. now inversion Hall.
Qed.

Lemma Forall_P_mark (g : UploadedFile -> UploadedFile) (i : string) (q : Queue) :
  (forall e, P e -> P (g e)) ->
  Forall P q ->
  Forall P (map (fun f => if String.eqb (id f) i then g f else f) q).
Proof.
  intros Hg Hq. apply Forall_map. eapply Forall_impl; [| exact Hq].
  intros e He. simpl. destruct (String.eqb (id e) i); auto.
Qed.

Lemma Forall_P_drawn (fileList : list File) :
  forall n, Forall P (drawn random fileList n).
Proof.
  induction fileList as [| f rest IH]; intros n; simpl; [constructor |].
  destruct (validateFile f); [constructor |]; auto.
Qed.

Lemma sound_park (i : string) (t : Task) (w : World) :
  upload_task random i t -> sound random P w -> sound random P (park (Suspended t) w).
Proof.
  intros Ht [[owners Hown] Hall]. split; [| exact Hall].
  exists (owners ++ [i]). simpl. apply Forall2_app; [exact Hown |].
  constructor; [exact Ht | constructor].
Qed.

Lemma sound_drop_task (n : nat) (w : World) :
  sound random P w -> sound random P (drop_task n w).
Proof.
  intros [[owners Hown] Hall]. split; [| exact Hall].
  exists (firstn n owners ++ skipn (S n) owners). simpl.
  now apply Forall2_drop.
Qed.

Lemma sound_uploadFile (u : UploadedFile) (w : World) :
  sound random P w -> sound random P (fire random (uploadFile u) w).
Proof.
  intros Hw. destruct (fire_uploadFile random u w) as (t & -> & Ht).
  apply sound_park with (i := id u); [now left |].
  apply sound_set_files.
  - intros q. apply Forall_P_mark. exact P_uploading.
  - exact Hw.
Qed.

Lemma sound_start_all (us : Queue) :
  forall w, sound random P w -> sound random P (start_all random us w).
Proof.
  induction us as [| u rest IH]; intros w Hw; [exact Hw |].
  apply IH. now apply sound_uploadFile.
Qed.

Lemma sound_step (w w' : World) (i : Input) :
  sound random P w -> step random w i = Some w' -> sound random P w'.
Proof.
  intros Hw Hstep. destruct i as [fileList | row | row | n o]; simpl in Hstep.
  - injection Hstep as <-. rewrite fire_handleFiles.
    apply sound_start_all. apply sound_set_files.
    + intros q Hq. apply Forall_app. split; [exact Hq | apply Forall_P_drawn].
    + exact Hw.
  - destruct (nth_error (files w) row) as [u |]; [| discriminate].
    injection Hstep as <-. rewrite fire_removeFile.
    apply sound_set_files; [| exact Hw].
    intros q Hq. apply Forall_forall. intros e He.
    apply filter_In in He. destruct He as [He _].
    revert e He. now apply Forall_forall.
  - destruct (nth_error (files w) row) as [u |]; [| discriminate].
    destruct (status u); try discriminate.
    injection Hstep as <-. rewrite fire_retryUpload.
    now apply sound_uploadFile.
  - destruct (nth_error (tasks w) n) as [t |] eqn:Hn; [| discriminate].
    destruct (resume t o) as [p |] eqn:Hres; [| discriminate].
    injection Hstep as <-.
    destruct Hw as [[owners Hown] Hall].
    destruct (Forall2_nth_error Hown _ Hn) as (i & _ & Ht).
    assert (Hd : sound random P (drop_task n w)).
    { apply sound_drop_task. split; [now exists owners | exact Hall]. }
    destruct (@fire_resumed random i t o p (drop_task n w) Ht Hres)
      as [[m ->] | [-> | (t' & Ht' & ->)]].
    + apply sound_set_files; [| exact Hd].
      intros q. apply Forall_P_mark. intros e. apply P_error.
    + apply sound_set_files; [| exact Hd].
      intros q. apply Forall_P_mark. exact P_success.
    + apply sound_park with (i := i); [now right | exact Hd].
Qed.

Lemma sound_exec (inputs : list Input) :
  forall w w', sound random P w -> exec random inputs w = Some w' -> sound random P w'.
Proof.
  induction inputs as [| i rest IH]; intros w w' Hw Hex; simpl in Hex.
  - now injection Hex as <-.
  - destruct (step random w i) as [w1 |] eqn:Hstep; [| discriminate].
    eapply IH; [| exact Hex]. eapply sound_step; eauto.
Qed.

Lemma sound_init : sound random P init.
Proof.
  split.
  - exists []. constructor.
  - repeat constructor.
Qed.

End EntryInvariant.

(** ** Ids *)

Lemma string_in_In (x : string) (l : list string) :
  string_in x l = true <-> In x l.
Proof. apply includes_In. Qed.

Lemma distinct_NoDup (l : list string) : distinct l = true <-> NoDup l.
Proof.
  induction l as [| x rest IH]; simpl.
  - split; [constructor | reflexivity].
  - rewrite andb_true_iff, negb_true_iff, IH. split.
    + intros [Hx Hrest]. constructor; [| exact Hrest].
      intros Hin. apply string_in_In in Hin. congruence.
    + intros H. inversion H as [| y l Hx Hrest]; subst. split; [| exact Hrest].
      destruct (string_in x rest) eqn:E; [| reflexivity].
      apply string_in_In in E. contradiction.
Qed.

Lemma distinct_ids_neq (random : nat -> Random.Draw) (n a b : nat) :
  distinct_ids random n = true ->
  a < n -> b < n -> id_of (random a) = id_of (random b) -> a = b.
Proof.
  unfold distinct_ids. rewrite distinct_NoDup. intros Hnd Ha Hb Heq.
  rewrite (NoDup_nth _ EmptyString) in Hnd.
  assert (Hnth : forall k, k < n ->
            nth k (map (fun k => id_of (random k)) (seq 0 n)) EmptyString
            = id_of (random k)).
  { intros k Hk.
    rewrite (nth_indep _ EmptyString (id_of (random 0)))
      by (now rewrite length_map, length_seq).
    change (id_of (random 0)) with ((fun k => id_of (random k)) 0).
    rewrite map_nth, seq_nth by assumption. reflexivity. }
  apply Hnd.
  - now rewrite length_map, length_seq.
  - now rewrite length_map, length_seq.
  - now rewrite !Hnth.
Qed.

Lemma distinct_ids_le (random : nat -> Random.Draw) (m n : nat) :
  m <= n -> distinct_ids random n = true -> distinct_ids random m = true.
Proof.
  unfold distinct_ids. rewrite !distinct_NoDup. intros Hle Hn.
  replace n with (m + (n - m)) in Hn by lia.
  rewrite seq_app, map_app in Hn.
  now apply NoDup_app_remove_r in Hn.
Qed.

Lemma map_id_mark (g : UploadedFile -> UploadedFile) (i : string) (q : Queue) :
  (forall e, id (g e) = id e) ->
  map id (map (fun f => if String.eqb (id f) i then g f else f) q) = map id q.
Proof.
  intros Hg. rewrite map_map. apply map_ext. intros e.
  destruct (String.eqb (id e) i); [apply Hg | reflexivity].
Qed.

Lemma NoDup_map_id_filter (p : UploadedFile -> bool) (q : Queue) :
  NoDup (map id q) -> NoDup (map id (filter p q)).
Proof.
  induction q as [| e q IH]; simpl; intros H; [constructor |].
  inversion H as [| x l Hx Hq]; subst.
  destruct (p e); simpl; [constructor |]; auto.
  intros Hin. apply Hx. apply in_map_iff in Hin.
  destruct Hin as (e' & He' & Hin). apply filter_In in Hin.
  apply in_map_iff. exists e'. tauto.
Qed.

Lemma NoDup_map_id_eq (q : Queue) (e e' : UploadedFile) :
  NoDup (map id q) -> In e q -> In e' q -> id e = id e' -> e = e'.
Proof.
  induction q as [| x q IH]; simpl; intros Hnd He He' Hid; [contradiction |].
  inversion Hnd as [| y l Hx Hq]; subst.
  destruct He as [-> | He], He' as [-> | He'].
  - reflexivity.
  - exfalso. apply Hx. rewrite Hid. now apply in_map.
  - exfalso. apply Hx. rewrite <- Hid. now apply in_map.
  - now apply IH.
Qed.

Lemma NoDup_snoc {A : Type} (l : list A) (x : A) :
  NoDup l -> ~ In x l -> NoDup (l ++ [x]).
Proof.
  induction l as [| a l IH]; simpl; intros Hl Hx.
  - constructor; [intros [] | constructor].
  - inversion Hl as [| y l' Ha Hl']; subst. constructor.
    + rewrite in_app_iff. simpl. intros [Hin | [-> | []]]; tauto.
    + apply IH; tauto.
Qed.

(** ** The state machine of an entry *)

Lemma entry_step_refl (e : UploadedFile) : entry_step e e.
Proof. unfold entry_step. tauto. Qed.

Lemma queue_step_mark (g : UploadedFile -> UploadedFile) (i : string) (q : Queue) :
  (forall e, In e q -> id e = i -> entry_step e (g e)) ->
  Forall2 entry_step q (map (fun f => if String.eqb (id f) i then g f else f) q).
Proof.
  induction q as [| e q IH]; intros Hg; simpl; constructor.
  - destruct (String.eqb (id e) i) eqn:E.
    + apply Hg; [now left | now apply String.eqb_eq].
    + apply entry_step_refl.
  - apply IH. intros e' He'. apply Hg. now right.
Qed.

Section StateMachine.

Variable random : nat -> Random.Draw.

Lemma issued_le (i : string) (m n : nat) : m <= n -> issued random i m -> issued random i n.
Proof. intros Hle (k & Hk & ->). exists k. split; [lia | reflexivity]. Qed.

Lemma drawn_ids (fileList : list File) :
  forall n,
    map id (drawn random fileList n)
    = map (fun k => id_of (random k)) (seq n (length (drawn random fileList n))).
Proof.
  induction fileList as [| f rest IH]; intros n; simpl; [reflexivity |].
  destruct (validateFile f); simpl; [f_equal |]; apply IH.
Qed.

Lemma drawn_pending (fileList : list File) :
  forall n, Forall (fun e => status e = Status.pending) (drawn random fileList n).
Proof.
  induction fileList as [| f rest IH]; intros n; simpl; [constructor |].
  destruct (validateFile f); [constructor; [reflexivity |] |]; apply IH.
Qed.

Lemma drawn_files (fileList : list File) :
  forall n, map file (drawn random fileList n) = filter validateFile fileList.
Proof.
  induction fileList as [| f rest IH]; intros n; simpl; [reflexivity |].
  destruct (validateFile f); simpl; [f_equal |]; apply IH.
Qed.

(** The start of an upload for an id whose entries are pending or failed
    and that has no upload in flight. *)
Lemma coherent_uploadFile (u : UploadedFile) (w : World) (owners : list string) :
  coherent random w owners ->
  (exists e, In e (files w) /\ id e = id u) ->
  (forall e, In e (files w) -> id e = id u ->
             status e = Status.pending \/ status e = Status.error) ->
  ~ In (id u) owners ->
  coherent random (fire random (uploadFile u) w) (owners ++ [id u]).
Proof.
  intros [Ht Hids Hown Hup Hif Hio Hlaw] (e0 & He0 & Hid0) Hst Hfree.
  destruct (fire_uploadFile random u w) as (t & -> & Hfetch).
  constructor; simpl.
  - apply Forall2_app; [exact Ht |]. constructor; [now left | constructor].
  - unfold markUploading. now rewrite map_id_mark.
  - now apply NoDup_snoc.
  - intros e' He' Hin. unfold markUploading in He'.
    apply in_map_iff in He'. destruct He' as (e & <- & He).
    destruct (String.eqb (id e) (id u)) eqn:E; [reflexivity |].
    apply Hup; [exact He |].
    apply in_app_iff in Hin. destruct Hin as [Hin | [Hin | []]]; [exact Hin |].
    apply String.eqb_neq in E. congruence.
  - intros e' He'. unfold markUploading in He'.
    apply in_map_iff in He'. destruct He' as (e & <- & He).
    apply issued_le with (m := draws w); [lia |].
    destruct (String.eqb (id e) (id u)); simpl; now apply Hif.
  - intros i Hin. apply issued_le with (m := draws w); [lia |].
    apply in_app_iff in Hin. destruct Hin as [Hin | [<- | []]]; [now apply Hio |].
    rewrite <- Hid0. now apply Hif.
  - split; [| exact Hlaw]. right. right.
    apply queue_step_mark. intros e He Hid.
    unfold entry_step. simpl. split; [reflexivity | split; [reflexivity |]].
    right. destruct (Hst e He Hid) as [-> | ->]; reflexivity.
Qed.

Lemma In_markUploading_other (u : UploadedFile) (i : string) (q : Queue) :
  In u q -> id u <> i -> In u (markUploading i q).
Proof.
  intros Hin Hne. unfold markUploading. apply in_map_iff. exists u.
  split; [| exact Hin].
  apply String.eqb_neq in Hne. now rewrite Hne.
Qed.

Lemma files_fire_uploadFile (u : UploadedFile) (w : World) :
  files (fire random (uploadFile u) w) = markUploading (id u) (files w).
Proof. now destruct (fire_uploadFile random u w) as (t & -> & _). Qed.

Lemma draws_fire_uploadFile (u : UploadedFile) (w : World) :
  draws (fire random (uploadFile u) w) = S (draws w).
Proof. now destruct (fire_uploadFile random u w) as (t & -> & _). Qed.

(** The uploads [handleFiles] starts for its new entries. *)
Lemma coherent_start_all (us : Queue) :
  forall w owners,
    coherent random w owners ->
    NoDup (map id us) ->
    (forall u, In u us ->
       In u (files w) /\ status u = Status.pending /\ ~ In (id u) owners) ->
    exists owners', coherent random (start_all random us w) owners'.
Proof.
  induction us as [| u rest IH]; intros w owners Hw Hnd Hus.
  - now exists owners.
  - simpl in Hnd. inversion Hnd as [| x l Hu Hrest]; subst.
    destruct (Hus u (or_introl eq_refl)) as (Hin & Hpending & Hfree).
    unfold start_all. cbn [fold_left].
    apply (IH _ (owners ++ [id u])).
    + apply coherent_uploadFile; [exact Hw | eauto | | exact Hfree].
      intros e He Hid.
      rewrite (NoDup_map_id_eq _ _ _ (coh_ids Hw) He Hin Hid). now left.
    + exact Hrest.
    + intros u' Hu'. destruct (Hus u' (or_intror Hu')) as (Hin' & Hp' & Hfree').
      assert (Hne : id u' <> id u).
      { intros Heq. apply Hu. rewrite <- Heq. now apply in_map. }
      split; [| split; [exact Hp' |]].
      * rewrite files_fire_uploadFile. now apply In_markUploading_other.
      * rewrite in_app_iff. simpl. intros [H | [H | []]]; [tauto | congruence].
Qed.

(** The append of [handleFiles], when the ids it drew are new. *)
Lemma coherent_append (fileList : list File) (w : World) (owners : list string) :
  coherent random w owners ->
  distinct_ids random (length (drawn random fileList (draws w)) + draws w) = true ->
  coherent random
    (set_files (fun prev => prev ++ drawn random fileList (draws w))
       (add_draws (length (drawn random fileList (draws w))) w)) owners
  /\ NoDup (map id (drawn random fileList (draws w)))
  /\ (forall u, In u (drawn random fileList (draws w)) -> ~ In (id u) owners).
Proof.
  intros [Ht Hids Hown Hup Hif Hio Hlaw] Hd.
  set (new := drawn random fileList (draws w)) in *.
  set (k := length new) in *.
  assert (Hnew : forall u, In u new ->
            exists b, draws w <= b < k + draws w /\ id u = id_of (random b)).
  { intros u Hu. apply (in_map id) in Hu. unfold new in Hu.
    rewrite drawn_ids in Hu. apply in_map_iff in Hu.
    destruct Hu as (b & Hb & Hin). apply in_seq in Hin.
    exists b. split; [unfold k, new; lia | now symmetry]. }
  assert (Hfresh : forall u i, In u new -> issued random i (draws w) -> id u <> i).
  { intros u i Hu (a & Ha & ->) Heq.
    destruct (Hnew u Hu) as (b & Hb & Hid). rewrite Hid in Heq.
    assert (b = a) by (apply (@distinct_ids_neq random (k + draws w)); auto; lia).
    lia. }
  assert (Hndnew : NoDup (map id new)).
  { unfold new. rewrite drawn_ids. fold new. fold k.
    unfold distinct_ids in Hd. apply distinct_NoDup in Hd.
    replace (k + draws w) with (draws w + k) in Hd by lia.
    rewrite seq_app, map_app in Hd.
    now apply NoDup_app_remove_l in Hd. }
  split; [| split; [exact Hndnew |]].
  - constructor; simpl.
    + exact Ht.
    + rewrite map_app. apply NoDup_app; [exact Hids | exact Hndnew |].
      intros i Hi Hi'.
      apply in_map_iff in Hi. destruct Hi as (e & <- & He).
      apply in_map_iff in Hi'. destruct Hi' as (u & Hid & Hu).
      apply (Hfresh u (id e) Hu); [now apply Hif | exact Hid].
    + exact Hown.
    + intros e He Hin. apply in_app_iff in He. destruct He as [He | He].
      * now apply Hup.
      * exfalso. apply (Hfresh e (id e) He); [now apply Hio | reflexivity].
    + intros e He. apply in_app_iff in He. destruct He as [He | He].
      * apply issued_le with (m := draws w); [lia | now apply Hif].
      * destruct (Hnew e He) as (b & Hb & Hid).
        exists b. split; [unfold k, new in *; lia | exact Hid].
    + intros i Hi. apply issued_le with (m := draws w); [lia | now apply Hio].
    + split; [| exact Hlaw]. left. exists new. split; [reflexivity |].
      apply drawn_pending.
  - intros u Hu Hin. apply (Hfresh u (id u) Hu); [now apply Hio | reflexivity].
Qed.

Lemma coherent_removeFile (i : string) (w : World) (owners : list string) :
  coherent random w owners ->
  coherent random
    (set_files (fun prev => filter (fun f => negb (String.eqb (id f) i)) prev) w)
    owners.
Proof.
  intros [Ht Hids Hown Hup Hif Hio Hlaw]. constructor; simpl.
  - exact Ht.
  - now apply NoDup_map_id_filter.
  - exact Hown.
  - intros e He. apply filter_In in He. now apply Hup.
  - intros e He. apply filter_In in He. now apply Hif.
  - exact Hio.
  - split; [| exact Hlaw]. right. left. now exists i.
Qed.

(** The end of an upload of the id [i], which waits at position [n]. *)
Lemma coherent_finish (g : UploadedFile -> UploadedFile) (s : Status.t)
      (i : string) (n : nat) (w : World) (owners : list string) :
  (forall e, file (g e) = file e /\ id (g e) = id e /\ status (g e) = s) ->
  edge Status.uploading s = true ->
  coherent random w owners ->
  nth_error owners n = Some i ->
  coherent random
    (set_files (map (fun f => if String.eqb (id f) i then g f else f))
       (drop_task n w))
    (firstn n owners ++ skipn (S n) owners).
Proof.
  intros Hg Hedge [Ht Hids Hown Hup Hif Hio Hlaw] Hn.
  destruct (NoDup_drop Hown _ Hn) as [Hnd Hnot].
  constructor; simpl.
  - now apply Forall2_drop.
  - rewrite map_id_mark; [exact Hids | intros e; apply Hg].
  - exact Hnd.
  - intros e' He' Hin. apply in_map_iff in He'. destruct He' as (e & <- & He).
    destruct (String.eqb (id e) i) eqn:E.
    + exfalso. apply Hnot. apply String.eqb_eq in E.
      destruct (Hg e) as (_ & Hid & _). rewrite Hid, E in Hin. exact Hin.
    + apply Hup; [exact He | eapply In_drop; exact Hin].
  - intros e' He'. apply in_map_iff in He'. destruct He' as (e & <- & He).
    destruct (String.eqb (id e) i).
    + destruct (Hg e) as (_ & -> & _). now apply Hif.
    + now apply Hif.
  - intros j Hj. apply Hio. eapply In_drop; exact Hj.
  - split; [| exact Hlaw]. right. right.
    apply queue_step_mark. intros e He Hid.
    destruct (Hg e) as (Hfile & Hid' & Hst).
    unfold entry_step. split; [exact Hfile | split; [exact Hid' |]].
    right. rewrite Hst.
    rewrite (Hup e He); [exact Hedge |].
    rewrite Hid. eapply nth_error_In; exact Hn.
Qed.

(** An upload that got its response and now waits for the body. *)
Lemma coherent_wait (i : string) (n : nat) (t' : Task) (w : World)
      (owners : list string) :
  coherent random w owners ->
  nth_error owners n = Some i ->
  text_task random i t' ->
  coherent random (park (Suspended t') (drop_task n w))
    ((firstn n owners ++ skipn (S n) owners) ++ [i]).
Proof.
  intros [Ht Hids Hown Hup Hif Hio Hlaw] Hn Ht'.
  destruct (NoDup_drop Hown _ Hn) as [Hnd Hnot].
  assert (Hsub : forall j, In j ((firstn n owners ++ skipn (S n) owners) ++ [i]) ->
                           In j owners).
  { intros j Hj. apply in_app_iff in Hj. destruct Hj as [Hj | [<- | []]].
    - eapply In_drop; exact Hj.
    - eapply nth_error_In; exact Hn. }
  constructor; simpl.
  - apply Forall2_app; [now apply Forall2_drop |].
    constructor; [now right | constructor].
  - exact Hids.
  - now apply NoDup_snoc.
  - intros e He Hin. apply Hup; auto.
  - exact Hif.
  - intros j Hj. apply Hio. auto.
  - exact Hlaw.
Qed.

Lemma draws_start_all (us : Queue) :
  forall w, draws (start_all random us w) = length us + draws w.
Proof.
  induction us as [| u rest IH]; intros w; [reflexivity |].
  change (start_all random (u :: rest) w)
    with (start_all random rest (fire random (uploadFile u) w)).
  rewrite IH, draws_fire_uploadFile. simpl. lia.
Qed.

(** One turn of the event loop keeps the queue coherent random as long as the
    ids drawn so far are pairwise different. *)
Lemma coherent_step (w w' : World) (i : Input) :
  (exists owners, coherent random w owners) ->
  step random w i = Some w' ->
  distinct_ids random (draws w') = true ->
  exists owners', coherent random w' owners'.
Proof.
  intros [owners Hw] Hstep Hd.
  destruct i as [fileList | row | row | n o]; simpl in Hstep.
  - injection Hstep as <-. rewrite fire_handleFiles in Hd |- *.
    rewrite draws_start_all in Hd. simpl in Hd.
    apply distinct_ids_le
      with (m := length (drawn random fileList (draws w)) + draws w) in Hd;
      [| lia].
    destruct (coherent_append fileList Hw Hd) as (Hw2 & Hnd & Hfresh).
    apply (coherent_start_all _ Hw2 Hnd).
    intros u Hu. split; [| split].
    + simpl. apply in_or_app. now right.
    + revert u Hu. apply Forall_forall. apply drawn_pending.
    + now apply Hfresh.
  - destruct (nth_error (files w) row) as [u |]; [| discriminate].
    injection Hstep as <-. rewrite fire_removeFile.
    exists owners. now apply coherent_removeFile.
  - destruct (nth_error (files w) row) as [u |] eqn:Hrow; [| discriminate].
    destruct (status u) eqn:Hst; try discriminate.
    injection Hstep as <-. rewrite fire_retryUpload.
    apply nth_error_In in Hrow.
    exists (owners ++ [id u]). apply coherent_uploadFile.
    + exact Hw.
    + now exists u.
    + intros e He Hid.
      rewrite (NoDup_map_id_eq _ _ _ (coh_ids Hw) He Hrow Hid). now right.
    + intros Hin. pose proof (coh_uploading Hw u Hrow Hin). congruence.
  - destruct (nth_error (tasks w) n) as [t |] eqn:Hn; [| discriminate].
    destruct (resume t o) as [p |] eqn:Hres; [| discriminate].
    injection Hstep as <-.
    destruct (Forall2_nth_error (coh_tasks Hw) _ Hn) as (j & Hj & Ht).
    destruct (@fire_resumed random j t o p (drop_task n w) Ht Hres)
      as [[m ->] | [-> | (t' & Ht' & ->)]].
    + eexists.
      apply (@coherent_finish
               (fun e => {| file := file e; id := id e; status := Status.error;
                            progress := 0; error := Some m |})
               Status.error j n w owners); auto.
    + eexists.
      apply (@coherent_finish
               (fun e => {| file := file e; id := id e; status := Status.success;
                            progress := 100; error := error e |})
               Status.success j n w owners); auto.
    + eexists. apply coherent_wait; [exact Hw | exact Hj | exact Ht'].
Qed.

Lemma coherent_init : coherent random init [].
Proof.
  constructor; simpl; try constructor; try contradiction.
Qed.

End StateMachine.

(** ** Pending entries *)

Section Pending.

Variable random : nat -> Random.Draw.

Lemma from_pending_map (f : UploadedFile -> UploadedFile) (q : Queue) :
  (forall e, In e q -> from_pending e (f e)) ->
  Forall2 from_pending q (map f q).
Proof.
  induction q as [| e q IH]; intros Hf; simpl; constructor.
  - apply Hf. now left.
  - apply IH. intros e' He'. apply Hf. now right.
Qed.

Lemma from_pending_markUploading (i : string) (q : Queue) :
  Forall2 from_pending q (markUploading i q).
Proof.
  apply from_pending_map. intros e _ Hp.
  destruct (String.eqb (id e) i); simpl; tauto.
Qed.

(** The loop of [handleFiles] over the new entries: when it ends, every
    entry that was pending has been marked. *)
Lemma settled_start_all (us : Queue) :
  forall w,
    owned random (tasks w) ->
    lawful_from_pending (files w :: past w) ->
    (forall e, In e (files w) -> status e = Status.pending ->
               In (id e) (map id us)) ->
    settled_world random (start_all random us w).
Proof.
  induction us as [| u rest IH]; intros w Hown Hlaw Hpend.
  - split; [exact Hown | split; [| exact Hlaw]].
    apply Forall_forall. intros e He Hp. exact (Hpend e He Hp).
  - change (start_all random (u :: rest) w)
      with (start_all random rest (fire random (uploadFile u) w)).
    destruct (fire_uploadFile random u w) as (t & Hfire & Ht).
    apply IH; rewrite Hfire; simpl.
    + destruct Hown as [owners Hown]. exists (owners ++ [id u]).
      apply Forall2_app; [exact Hown |].
      constructor; [now left | constructor].
    + split; [| exact Hlaw]. right. right. apply from_pending_markUploading.
    + intros e' He' Hp. unfold markUploading in He'.
      apply in_map_iff in He'. destruct He' as (e & <- & He).
      destruct (String.eqb (id e) (id u)) eqn:E; [discriminate |].
      destruct (Hpend e He Hp) as [Hid | Hin]; [| exact Hin].
      apply String.eqb_neq in E. congruence.
Qed.

Lemma not_pending_mark (g : UploadedFile -> UploadedFile) (i : string) (q : Queue) :
  (forall e, status (g e) <> Status.pending) ->
  Forall (fun e => status e <> Status.pending) q ->
  Forall (fun e => status e <> Status.pending)
    (map (fun f => if String.eqb (id f) i then g f else f) q).
Proof.
  intros Hg Hq. apply Forall_map. eapply Forall_impl; [| exact Hq].
  intros e He. simpl. destruct (String.eqb (id e) i); [apply Hg | exact He].
Qed.

Lemma from_pending_settled (f : UploadedFile -> UploadedFile) (q : Queue) :
  Forall (fun e => status e <> Status.pending) q ->
  Forall2 from_pending q (map f q).
Proof.
  intros Hq. apply from_pending_map. intros e He Hp.
  rewrite Forall_forall in Hq. now destruct (Hq e He).
Qed.

Lemma settled_step (w w' : World) (i : Input) :
  settled_world random w -> step random w i = Some w' ->
  settled_world random w'.
Proof.
  intros (Hown & Hnp & Hlaw) Hstep.
  destruct i as [fileList | row | row | n o]; simpl in Hstep.
  - injection Hstep as <-. rewrite fire_handleFiles.
    apply settled_start_all; simpl.
    + exact Hown.
    + split; [| exact Hlaw]. left. eauto.
    + intros e He Hp. apply in_app_iff in He. destruct He as [He | He].
      * rewrite Forall_forall in Hnp. now destruct (Hnp e He).
      * now apply in_map.
  - destruct (nth_error (files w) row) as [u |]; [| discriminate].
    injection Hstep as <-. rewrite fire_removeFile.
    split; [exact Hown | split; simpl].
    + apply Forall_forall. intros e He. apply filter_In in He.
      rewrite Forall_forall in Hnp. now apply Hnp.
    + split; [| exact Hlaw]. right. left. eauto.
  - destruct (nth_error (files w) row) as [u |]; [| discriminate].
    destruct (status u); try discriminate.
    injection Hstep as <-. rewrite fire_retryUpload.
    apply (settled_start_all [u]); [exact Hown | exact Hlaw |].
    intros e He Hp. rewrite Forall_forall in Hnp. now destruct (Hnp e He).
  - destruct (nth_error (tasks w) n) as [t |] eqn:Hn; [| discriminate].
    destruct (resume t o) as [p |] eqn:Hres; [| discriminate].
    injection Hstep as <-.
    destruct Hown as [owners Hown].
    destruct (Forall2_nth_error Hown _ Hn) as (j & _ & Ht).
    assert (Hown' : owned random (tasks (drop_task n w))).
    { exists (firstn n owners ++ skipn (S n) owners). simpl.
      now apply Forall2_drop. }
    destruct (@fire_resumed random j t o p (drop_task n w) Ht Hres)
      as [[m ->] | [-> | (t' & Ht' & ->)]].
    + split; [exact Hown' | split; simpl].
      * apply not_pending_mark; [discriminate | exact Hnp].
      * split; [| exact Hlaw]. right. right. now apply from_pending_settled.
    + split; [exact Hown' | split; simpl].
      * apply not_pending_mark; [discriminate | exact Hnp].
      * split; [| exact Hlaw]. right. right. now apply from_pending_settled.
    + split; [| split; [exact Hnp | exact Hlaw]].
      destruct Hown' as [owners' Hown']. exists (owners' ++ [j]). simpl.
      apply Forall2_app; [exact Hown' |].
      constructor; [now right | constructor].
Qed.

Lemma settled_exec (inputs : list Input) :
  forall w w',
    settled_world random w -> exec random inputs w = Some w' ->
    settled_world random w'.
Proof.
  induction inputs as [| i rest IH]; intros w w' Hw Hex; simpl in Hex.
  - now injection Hex as <-.
  - destruct (step random w i) as [w1 |] eqn:Hstep; [| discriminate].
    apply (IH w1 w'); [| exact Hex].
    exact (@settled_step w w1 i Hw Hstep).
Qed.

Lemma settled_init : settled_world random init.
Proof.
  split; [exists []; constructor | split; [constructor | exact I]].
Qed.

End Pending.

(** ** Sessions *)

Section Sessions.

Variable random : nat -> Random.Draw.

Lemma owned_step (w w' : World) (i : Input) :
  owned random (tasks w) -> step random w i = Some w' ->
  owned random (tasks w').
Proof.
  intros Hown Hstep.
  assert (Hs : sound random (fun _ => True) w).
  { split; [exact Hown |]. apply Forall_forall. intros q _.
    apply Forall_forall. now intros e _. }
  now destruct (@sound_step random (fun _ => True)
                  (fun _ _ => I) (fun _ _ => I) (fun _ _ => I) (fun _ _ _ => I)
                  w w' i Hs Hstep).
Qed.

Lemma draws_step (w w' : World) (i : Input) :
  owned random (tasks w) -> step random w i = Some w' -> draws w <= draws w'.
Proof.
  intros [owners Hown] Hstep.
  destruct i as [fileList | row | row | n o]; simpl in Hstep.
  - injection Hstep as <-. rewrite fire_handleFiles, draws_start_all. simpl. lia.
  - destruct (nth_error (files w) row); [| discriminate].
    now injection Hstep as <-.
  - destruct (nth_error (files w) row) as [u |]; [| discriminate].
    destruct (status u); try discriminate.
    injection Hstep as <-. rewrite fire_retryUpload, draws_fire_uploadFile. lia.
  - destruct (nth_error (tasks w) n) as [t |] eqn:Hn; [| discriminate].
    destruct (resume t o) as [p |] eqn:Hres; [| discriminate].
    injection Hstep as <-.
    destruct (Forall2_nth_error Hown _ Hn) as (j & _ & Ht).
    destruct (@fire_resumed random j t o p (drop_task n w) Ht Hres)
      as [[m ->] | [-> | (t' & Ht' & ->)]]; simpl; lia.
Qed.

Lemma draws_exec (inputs : list Input) :
  forall w w',
    owned random (tasks w) -> exec random inputs w = Some w' ->
    draws w <= draws w'.
Proof.
  induction inputs as [| i rest IH]; intros w w' Hown Hex; simpl in Hex.
  - injection Hex as <-. lia.
  - destruct (step random w i) as [w1 |] eqn:Hstep; [| discriminate].
    pose proof (@draws_step w w1 i Hown Hstep).
    pose proof (IH w1 w' (@owned_step w w1 i Hown Hstep) Hex). lia.
Qed.

Lemma coherent_exec (inputs : list Input) :
  forall w w',
    (exists owners, coherent random w owners) ->
    exec random inputs w = Some w' ->
    distinct_ids random (draws w') = true ->
    exists owners', coherent random w' owners'.
Proof.
  induction inputs as [| i rest IH]; intros w w' Hw Hex Hd; simpl in Hex.
  - now injection Hex as <-.
  - destruct (step random w i) as [w1 |] eqn:Hstep; [| discriminate].
    assert (Hown : owned random (tasks w)).
    { destruct Hw as [owners Hw]. exists owners. apply (coh_tasks Hw). }
    apply (IH w1 w'); [| exact Hex | exact Hd].
    apply (@coherent_step random w w1 i Hw Hstep).
    apply distinct_ids_le with (n := draws w'); [| exact Hd].
    apply (@draws_exec rest w1 w' (@owned_step w w1 i Hown Hstep) Hex).
Qed.

End Sessions.

Example demo_final_statuses :
  map status (files Demo.final) = [Status.success; Status.uploading]
  /\ draws Demo.final = 5.
Proof. split; reflexivity. Qed.

(** ** The claims about the queue *)

(** C5: at every moment of every session, an entry has progress 100
    exactly when its status is ['success'], and an entry whose status is
    ['uploading'] or ['error'] has progress 0, so every update that moves
    an entry into one of these two statuses leaves it with progress 0. *)
Theorem progress_matches_status (random : nat -> Random.Draw)
        (inputs : list Input) (w : World) :
  exec random inputs init = Some w ->
  Forall (Forall progress_ok) (files w :: past w).
Proof.
  intros Hex.
  apply (@sound_exec random progress_ok) with (inputs := inputs) (w := init) (w' := w);
    [| | | | apply sound_init | exact Hex];
    unfold progress_ok; simpl; intros;
    (split; [split; intros; discriminate || reflexivity
            | intros [|]; discriminate || reflexivity]).
Qed.

Lemma progress_matches_status_witness :
  Forall (Forall progress_ok) (files Demo.final :: past Demo.final).
Proof.
  exact (@progress_matches_status Demo.random Demo.session Demo.final eq_refl).
Defined.

(** C9, amended: the ids of the queue are pairwise different in every
    session in which the draws made so far were cut into pairwise
    different ids. *)
Theorem ids_unique_when_draws_distinct (random : nat -> Random.Draw)
        (inputs : list Input) (w : World) :
  exec random inputs init = Some w ->
  distinct_ids random (draws w) = true ->
  NoDup (map id (files w)).
Proof.
  intros Hex Hd.
  destruct (@coherent_exec random inputs init w) as [owners Hw];
    [exists []; apply coherent_init | exact Hex | exact Hd |].
  exact (coh_ids Hw).
Qed.

Lemma ids_unique_when_draws_distinct_witness :
  NoDup (map id (files Demo.final)).
Proof.
  exact (@ids_unique_when_draws_distinct Demo.random Demo.session Demo.final
           eq_refl eq_refl).
Defined.

(** C9 as stated fails: [handleFiles] takes the id a draw gives without
    looking at the queue, so a draw that repeats an earlier one gives two
    entries the same id. *)
Lemma ids_repeat_with_draws :
  option_map (fun w => map id (files w))
    (exec Demo.repeating [DropFiles [Demo.report]; DropFiles [Demo.table]] init)
  = Some ["0fzyo82mv"; "0fzyo82mv"].
Proof. reflexivity. Qed.

(** The edges as the claim words them: none leaves ['success'], the only
    one from ['pending'] goes to ['uploading'], ['uploading'] is entered
    from ['pending'] and ['error'] only, and ['success'] and ['error']
    from ['uploading'] only. *)
Lemma edge_reading (a b : Status.t) :
  edge a b = true ->
  a <> Status.success
  /\ (a = Status.pending -> b = Status.uploading)
  /\ (b = Status.uploading -> a = Status.pending \/ a = Status.error)
  /\ (b = Status.success \/ b = Status.error -> a = Status.uploading).
Proof.
  destruct a, b; simpl; intros H; try discriminate;
    (split; [discriminate | split; [| split]]); intros; try tauto;
    try discriminate; try (destruct H0; discriminate).
Qed.

(** C4, amended: in every session a pending entry only ever becomes
    uploading, and none is left pending when a turn ends; and as long as
    the draws made so far were cut into pairwise different ids, every
    update of the queue appends pending entries, removes the entries of
    one id, or changes statuses along the edges pending-uploading,
    uploading-success, uploading-error and error-uploading only, so that
    no entry leaves ['success']. *)
Theorem entries_follow_state_machine (random : nat -> Random.Draw)
        (inputs : list Input) (w : World) :
  exec random inputs init = Some w ->
  lawful_from_pending (files w :: past w)
  /\ Forall (fun e => status e <> Status.pending) (files w)
  /\ (distinct_ids random (draws w) = true -> lawful (files w :: past w)).
Proof.
  intros Hex. split; [| split].
  - apply (@settled_exec random inputs init w (settled_init random) Hex).
  - apply (@settled_exec random inputs init w (settled_init random) Hex).
  - intros Hd.
    destruct (@coherent_exec random inputs init w) as [owners Hw];
      [exists []; apply coherent_init | exact Hex | exact Hd |].
    exact (coh_lawful Hw).
Qed.

Lemma entries_follow_state_machine_witness :
  lawful (files Demo.final :: past Demo.final).
Proof.
  exact (proj2 (proj2 (@entries_follow_state_machine Demo.random Demo.session
                         Demo.final eq_refl)) eq_refl).
Defined.

(** C4 as stated fails: the updaters of [uploadFile] look at the id only,
    so the upload of a second entry that was given the id of a succeeded
    one moves the succeeded entry back to ['uploading']. *)
Lemma success_left_when_ids_repeat :
  option_map
    (fun w => (map (map status) (firstn 1 (past w)), map status (files w)))
    (exec Demo.repeating Demo.two_drops init)
  = Some ([[Status.success; Status.pending]],
          [Status.uploading; Status.uploading]).
Proof. reflexivity. Qed.

(** C1 fails on the code.  The error message is there whenever the status
    is ['error'], but not only then: the updaters for ['uploading'] and
    ['success'] spread the old fields ([...f]) and do not reset [error],
    so an entry that failed once, was retried and then succeeded ends
    with status ['success'] and the message of the old failure (which
    the row still shows, as it renders [uploadedFile.error] whenever it
    is set).  The run below is that scenario. *)
Theorem retry_success_keeps_error_message :
  option_map files
    (exec Demo.random
       [ DropFiles [Demo.report];
         Settle 0 (Responded Demo.server_error);
         ClickRetry 0;
         Settle 0 (Responded Demo.accepted);
         Settle 0 (BodyRead "done") ]
       init)
  = Some [ {| file := Demo.report;
              id := "0fzyo82mv";
              status := Status.success;
              progress := 100;
              error := Some "Upload failed: 500 Internal Server Error" |} ]
  /\ ~ error_iff_status
        {| file := Demo.report;
           id := "0fzyo82mv";
           status := Status.success;
           progress := 100;
           error := Some "Upload failed: 500 Internal Server Error" |}.
Proof.
  split; [reflexivity |].
  unfold error_iff_status. simpl. intros [H _].
  assert (Habs : Status.success = Status.error) by (apply H; discriminate).
  discriminate.
Qed.

(** The half of C1 that does hold: a failed entry always carries a message. *)
Lemma error_status_has_message (random : nat -> Random.Draw)
      (inputs : list Input) (w : World) :
  exec random inputs init = Some w ->
  Forall (Forall (fun e => status e = Status.error -> error e <> None))
    (files w :: past w).
Proof.
  intros Hex.
  apply (@sound_exec random
           (fun e => status e = Status.error -> error e <> None))
    with (inputs := inputs) (w := init) (w' := w);
    [| | | | apply sound_init | exact Hex];
    simpl; intros; discriminate.
Qed.

(** ** The request of an upload *)

Lemma string_of_list_length (l : list ascii) :
  String.length (string_of_list_ascii l) = length l.
Proof. induction l as [| c l IH]; simpl; congruence. Qed.

Lemma toUpperCase_of_list (l : list ascii) :
  JS.toUpperCase (string_of_list_ascii l)
  = string_of_list_ascii (map JS.upper_char l).
Proof.
  unfold JS.toUpperCase. induction l as [| c l IH]; simpl; congruence.
Qed.

(** The id cut from a draw: its first nine fraction digits. *)
Lemma id_of_digits (d : Random.Draw) :
  id_of d = string_of_list_ascii (map Random.digit36 (firstn 9 d)).
Proof.
  unfold id_of, JS.substr, Random.toString36.
  destruct d as [| x d]; [reflexivity |].
  change (list_ascii_of_string ("0." ++ string_of_list_ascii (map Random.digit36 (x :: d))))
    with ("0"%char :: "."%char
            :: list_ascii_of_string (string_of_list_ascii (map Random.digit36 (x :: d)))).
  rewrite list_ascii_of_string_of_list_ascii.
  cbn [skipn]. now rewrite firstn_map.
Qed.

Lemma digit36_upper (x : N) :
  upper_alnum (JS.upper_char (Random.digit36 x)) = true.
Proof.
  unfold Random.digit36.
  assert (H : N.to_nat (x mod 36) < 36).
  { pose proof (N.mod_upper_bound x 36). lia. }
  destruct (N.to_nat (x mod 36)) as [| n]; [reflexivity |].
  do 35 (destruct n as [| n]; [reflexivity |]).
  lia.
Qed.

(** C2, amended: every call of [uploadFile], a retry too, makes one new
    draw and sends as [userId] the text [USR] followed by the first nine
    base-36 fraction digits of that draw in upper case: at most nine
    characters (nine when the draw has that many digits), each a digit or
    an upper-case letter; the queue after the call is the old queue with
    the entries of the id marked, and holds nothing of the draw. *)
Theorem userId_of_upload (random : nat -> Random.Draw)
        (u : UploadedFile) (w : World) :
  exists body k suffix,
    run random (uploadFile u) w
    = (set_files (markUploading (id u)) (next_draw w), Suspended (AtFetch body k))
    /\ get "userId" body = Some (TextValue ("USR" ++ suffix))
    /\ suffix = JS.toUpperCase (id_of (random (draws w)))
    /\ String.length suffix = Nat.min 9 (length (random (draws w)))
    /\ all_chars upper_alnum suffix = true
    /\ fire random (retryUpload u) w = fire random (uploadFile u) w.
Proof.
  do 2 eexists. exists (JS.toUpperCase (id_of (random (draws w)))).
  split; [reflexivity |]. split; [reflexivity |]. split; [reflexivity |].
  rewrite id_of_digits, toUpperCase_of_list. split; [| split].
  - now rewrite string_of_list_length, !length_map, length_firstn.
  - unfold all_chars. rewrite list_ascii_of_string_of_list_ascii.
    apply forallb_forall. intros c Hc.
    apply in_map_iff in Hc. destruct Hc as (c' & <- & Hc').
    apply in_map_iff in Hc'. destruct Hc' as (x & <- & _).
    apply digit36_upper.
  - apply fire_retryUpload.
Qed.

(** C2 as stated fails: the digits are sent in upper case, here
    [USR1FZYO82MV] for the draw [0.1fzyo82mvyr]; and the draw 0.5, which
    prints as [0.i], gives the four characters [USRI]. *)
Lemma userId_is_upper_case :
  option_map (fun w => map (get "userId") (requests w))
    (exec Demo.random [DropFiles [Demo.report]] init)
  = Some [Some (TextValue "USR1FZYO82MV")]
  /\ spec_userId_format "USR1FZYO82MV" = false
  /\ userId [18%N] = "USRI".
Proof. repeat split. Qed.

(** ** Admission *)




Example admit_csv_and_exe :
  option_map (fun w => (map (fun e => name (file e)) (files w), length (files w)))
    (exec Demo.random [DropFiles [Demo.table; Demo.setup]] init)
  = Some (["table.csv"], 1).
Proof. reflexivity. Qed.

(** ** Failures *)




(** ** Removal *)

Lemma mark_absent (g : UploadedFile -> UploadedFile) (i : string) (q : Queue) :
  ~ In i (map id q) ->
  map (fun f => if String.eqb (id f) i then g f else f) q = q.
Proof.
  induction q as [| e q IH]; simpl; intros H; [reflexivity |].
  destruct (String.eqb (id e) i) eqn:E.
  - apply String.eqb_eq in E. tauto.
  - f_equal. apply IH. tauto.
Qed.

Lemma filter_absent (i : string) (q : Queue) :
  ~ In i (map id q) ->
  filter (fun f => negb (String.eqb (id f) i)) q = q.
Proof.
  induction q as [| e q IH]; simpl; intros H; [reflexivity |].
  destruct (String.eqb (id e) i) eqn:E; simpl.
  - apply String.eqb_eq in E. tauto.
  - f_equal. apply IH. tauto.
Qed.

Lemma filter_removes (i : string) (q : Queue) :
  ~ In i (map id (filter (fun f => negb (String.eqb (id f) i)) q)).
Proof.
  intros H. apply in_map_iff in H. destruct H as (e & Hid & He).
  apply filter_In in He. destruct He as [_ He].
  apply negb_true_iff, String.eqb_neq in He. contradiction.
Qed.

(** C8: when no entry of the queue has the id, [removeFile] of that id
    and each of the updates of an upload of that id (the start, the
    success, the failure) leave the queue as it is, and none of them
    ends with an uncaught throw; after [removeFile] of an id no entry has
    that id, so a response that arrives later brings no entry back and a
    second [removeFile] changes nothing. *)
Theorem absent_id_updates_change_nothing (random : nat -> Random.Draw)
        (w : World) (i : string) :
  ~ In i (map id (files w)) ->
  files (fire random (removeFile i) w) = files w
  /\ snd (run random (removeFile i) w) = Finished
  /\ markUploading i (files w) = files w
  /\ markSuccess i (files w) = files w
  /\ (forall m, markError i m (files w) = files w)
  /\ (forall t o p,
        upload_task random i t -> resume t o = Some p ->
        files (fire random p w) = files w
        /\ forall e, snd (run random p w) <> Uncaught e)
  /\ (forall w0, ~ In i (map id (files (fire random (removeFile i) w0)))).
Proof.
  intros Habsent.
  split; [| split; [| split; [| split; [| split; [| split]]]]].
  - rewrite fire_removeFile. simpl. now apply filter_absent.
  - reflexivity.
  - now apply mark_absent.
  - now apply mark_absent.
  - intros m. now apply mark_absent.
  - intros t o p Ht Hres. split.
    + destruct (@fire_resumed random i t o p w Ht Hres)
        as [[m ->] | [-> | (t' & _ & ->)]]; simpl.
      * now apply mark_absent.
      * now apply mark_absent.
      * reflexivity.
    + intros e.
      destruct (@run_resumed random i t o p w Ht Hres)
        as [[m ->] | [-> | (t' & _ & ->)]]; discriminate.
  - intros w0. rewrite fire_removeFile. simpl. apply filter_removes.
Qed.

Lemma absent_id_updates_change_nothing_witness :
  files (fire Demo.random (removeFile "5fzyo82mv") Demo.final) = files Demo.final
  /\ markSuccess "5fzyo82mv" (files Demo.final) = files Demo.final.
Proof.
  assert (Habsent : ~ In "5fzyo82mv" (map id (files Demo.final))).
  { simpl. intros [H | [H | []]]; discriminate. }
  destruct (@absent_id_updates_change_nothing Demo.random Demo.final
              "5fzyo82mv" Habsent) as (Hrem & _ & _ & Hsucc & _).
  split; [exact Hrem | exact Hsucc].
Defined.

(** ** The summary *)






Example summary_two_of_three :
  option_map
    (fun w => option_map
                (fun s => (summary_succeeded s, summary_total s, summary_percent s))
                (summary (files w)))
    (exec Demo.random
       [ DropFiles [Demo.report; Demo.table; mkFile "notes.txt" "text/plain" 9];
         Settle 0 (Responded Demo.accepted);
         Settle 0 (Responded Demo.server_error);
         Settle 0 (Responded Demo.accepted);
         Settle 0 (BodyRead "done");
         Settle 0 (BodyRead "done") ]
       init)
  = Some (Some (2, 3, Double.of_Z 67)).
Proof. reflexivity. Qed.

(** At a tie the double arithmetic decides: 23 of 40 is shown as 57,
    since [23 / 40 * 100] evaluates to the double below 57.5. *)
Example percent_of_23_of_40 : percent_of 23 40 = Double.of_Z 57.
Proof. reflexivity. Qed.

(** * More of the component *)

(** The runs of the demo sessions. *)
Lemma demo_final_run : exec Demo.random Demo.session init = Some Demo.final.
Proof. vm_compute. reflexivity. Qed.

Lemma demo_idle_run :
  exec Demo.random Demo2.idle_session init = Some Demo2.idle.
Proof. vm_compute. reflexivity. Qed.

(** ** Names, extensions and icons *)

Lemma in_all_ascii (c : ascii) : In c all_ascii.
Proof.
  rewrite <- (ascii_nat_embedding c). apply in_map. apply in_seq.
  pose proof (nat_ascii_bounded c). lia.
Qed.

Lemma same_letter_table :
  forallb
    (fun c =>
       forallb
         (fun d =>
            implb (same_letter c d)
              (Ascii.eqb (JS.lower_char c) (JS.lower_char d)
               && Bool.eqb (Ascii.eqb c ".") (Ascii.eqb d ".")))
         all_ascii)
    all_ascii
  = true.
Proof. vm_compute. reflexivity. Qed.

Lemma same_letter_inv (c d : ascii) :
  same_letter c d = true ->
  JS.lower_char c = JS.lower_char d /\ Ascii.eqb c "." = Ascii.eqb d ".".
Proof.
  intros H. pose proof same_letter_table as T.
  rewrite forallb_forall in T. specialize (T c (in_all_ascii c)).
  rewrite forallb_forall in T. specialize (T d (in_all_ascii d)).
  rewrite H in T. simpl in T. apply andb_true_iff in T. destruct T as [T1 T2].
  split; [now apply Ascii.eqb_eq | now apply Bool.eqb_prop].
Qed.

Lemma occurs_same_up_to_case (s : string) :
  forall t, same_up_to_case s t = true -> JS.occurs "." s = JS.occurs "." t.
Proof.
  induction s as [| c s IH]; intros [| d t] H; simpl in H; try discriminate;
    [reflexivity |].
  apply andb_true_iff in H. destruct H as [Hc Hs].
  destruct (same_letter_inv _ _ Hc) as [_ Hdot].
  simpl. now rewrite Hdot, (IH t Hs).
Qed.

Lemma after_last_dot_same_up_to_case (s : string) :
  forall t, same_up_to_case s t = true ->
            same_up_to_case (after_last_dot s) (after_last_dot t) = true.
Proof.
  induction s as [| c s IH]; intros [| d t] H; simpl in H; try discriminate;
    [reflexivity |].
  pose proof H as Hboth.
  apply andb_true_iff in H. destruct H as [Hc Hs].
  destruct (same_letter_inv _ _ Hc) as [_ Hdot].
  cbn [after_last_dot]. rewrite (occurs_same_up_to_case _ _ Hs), Hdot.
  destruct (JS.occurs "." t); [now apply IH |].
  destruct (Ascii.eqb d "."); [exact Hs | exact Hboth].
Qed.

Lemma toLowerCase_same_up_to_case (s : string) :
  forall t, same_up_to_case s t = true -> JS.toLowerCase s = JS.toLowerCase t.
Proof.
  induction s as [| c s IH]; intros [| d t] H; simpl in H; try discriminate;
    [reflexivity |].
  apply andb_true_iff in H. destruct H as [Hc Hs].
  destruct (same_letter_inv _ _ Hc) as [Hlow _].
  change (JS.toLowerCase (String c s))
    with (String (JS.lower_char c) (JS.toLowerCase s)).
  change (JS.toLowerCase (String d t))
    with (String (JS.lower_char d) (JS.toLowerCase t)).
  now rewrite Hlow, (IH t Hs).
Qed.

Lemma getFileIcon_after_last_dot (f : File) :
  getFileIcon f
  = let e := JS.toLowerCase (after_last_dot (name f)) in
    if String.eqb e "pdf" then FileRed
    else if String.eqb e "csv" then SpreadsheetGreen
    else if String.eqb e "txt" then TextBlue
    else FileGray.
Proof. unfold getFileIcon. now rewrite pop_split. Qed.

(** X1: a row gets one of the three coloured icons exactly when the
    extension of its name is one of the allowed extensions; a file that
    was accepted for its media type alone is shown with the gray icon. *)
Theorem icon_coloured_iff_extension_allowed (f : File) :
  getFileIcon f <> FileGray
  <-> JS.includes allowedExtensions (extension f) = true.
Proof.
  rewrite getFileIcon_after_last_dot, extension_after_last_dot.
  cbv zeta. set (e := JS.toLowerCase (after_last_dot (name f))).
  unfold JS.includes, allowedExtensions.
  change ("." ++ e)%string with (String "."%char e). simpl.
  destruct (String.eqb e "pdf"), (String.eqb e "csv"), (String.eqb e "txt");
    simpl; split; intros H; try reflexivity; try discriminate;
    try (exfalso; now apply H).
Qed.

Example gray_icon_for_accepted_file :
  validateFile (mkFile "sheet.xls" "application/vnd.ms-excel" 7) = true
  /\ getFileIcon (mkFile "sheet.xls" "application/vnd.ms-excel" 7) = FileGray.
Proof. split; reflexivity. Qed.

(** X2: validation and the icon do not depend on the case of the
    letters [A]-[Z] of the name: two files of the same media type whose
    names differ only in that some of these letters are upper case in
    one and lower case in the other are both accepted or both rejected
    and get the same icon. *)
Theorem validation_ignores_letter_case (f g : File) :
  type f = type g ->
  same_up_to_case (name f) (name g) = true ->
  validateFile f = validateFile g /\ getFileIcon f = getFileIcon g.
Proof.
  intros Htype Hname.
  assert (He : JS.toLowerCase (after_last_dot (name f))
               = JS.toLowerCase (after_last_dot (name g))).
  { apply toLowerCase_same_up_to_case.
    now apply after_last_dot_same_up_to_case. }
  split.
  - unfold validateFile. now rewrite !extension_after_last_dot, Htype, He.
  - now rewrite !getFileIcon_after_last_dot, He.
Qed.

Lemma validation_ignores_letter_case_witness :
  validateFile (mkFile "Notes.TXT" EmptyString 3)
  = validateFile (mkFile "notes.txt" EmptyString 3)
  /\ getFileIcon (mkFile "Notes.TXT" EmptyString 3)
     = getFileIcon (mkFile "notes.txt" EmptyString 3).
Proof.
  exact (@validation_ignores_letter_case
           (mkFile "Notes.TXT" EmptyString 3)
           (mkFile "notes.txt" EmptyString 3) eq_refl eq_refl).
Defined.

Lemma occurs_append (pre ext : string) :
  JS.occurs "." (pre ++ String "." ext)%string = true.
Proof.
  induction pre as [| c pre IH]; simpl.
  - reflexivity.
  - rewrite IH. apply orb_true_r.
Qed.

Lemma after_last_dot_append (pre ext : string) :
  JS.occurs "." ext = false ->
  after_last_dot (pre ++ String "." ext)%string = ext.
Proof.
  intros Hext. induction pre as [| c pre IH].
  - simpl. now rewrite Hext.
  - change ((String c pre ++ String "." ext)%string)
      with (String c (pre ++ String "." ext)%string).
    cbn [after_last_dot]. now rewrite occurs_append.
Qed.

(** X3: only what follows the last ['.'] of a name counts: a name made
    of anything, a ['.'] and a dot-free end is accepted exactly when its
    media type is allowed or that end is [txt], [pdf] or [csv] up to
    case, whatever stands before (so [a.exe.txt] passes and [a.txt.exe]
    does not). *)
Theorem validation_reads_last_extension (pre ext ty : string) (sz : N) :
  JS.occurs "." ext = false ->
  validateFile (mkFile (pre ++ String "." ext) ty sz)
  = JS.includes allowedTypes ty
    || JS.includes ["txt"; "pdf"; "csv"] (JS.toLowerCase ext).
Proof.
  intros Hext. unfold validateFile.
  rewrite extension_after_last_dot. cbn [name type].
  rewrite after_last_dot_append by assumption.
  reflexivity.
Qed.

Lemma validation_reads_last_extension_witness :
  validateFile (mkFile "a.exe.txt" EmptyString 1) = true
  /\ validateFile (mkFile "a.txt.exe" EmptyString 1) = false.
Proof.
  split.
  - exact (@validation_reads_last_extension "a.exe" "txt" EmptyString 1 eq_refl).
  - exact (@validation_reads_last_extension "a.txt" "exe" EmptyString 1 eq_refl).
Defined.

(** ** Requests *)

Section Requests.

Variable random : nat -> Random.Draw.

Lemma requests_park (t : Task) (w : World) :
  requests (park (Suspended t) w)
  = requests w ++ match t with AtFetch body _ => [body] | AtText _ _ => [] end.
Proof.
  unfold requests. simpl. rewrite flat_map_app. simpl. now rewrite app_nil_r.
Qed.

Lemma fire_uploadFile_body (u : UploadedFile) (w : World) :
  exists k,
    fire random (uploadFile u) w
    = park (Suspended (AtFetch (upload_body (file u) (random (draws w))) k))
        (set_files (markUploading (id u)) (next_draw w)).
Proof. eexists. reflexivity. Qed.

Lemma requests_fire_uploadFile (u : UploadedFile) (w : World) :
  requests (fire random (uploadFile u) w)
  = requests w ++ [upload_body (file u) (random (draws w))].
Proof.
  destruct (fire_uploadFile_body u w) as [k ->]. now rewrite requests_park.
Qed.

Lemma requests_start_all (us : Queue) :
  forall w,
    requests (start_all random us w)
    = requests w
        ++ map (fun p => upload_body (fst p) (random (snd p)))
             (combine (map file us) (seq (draws w) (length us))).
Proof.
  induction us as [| u rest IH]; intros w.
  - simpl. now rewrite app_nil_r.
  - change (start_all random (u :: rest) w)
      with (start_all random rest (fire random (uploadFile u) w)).
    rewrite IH, requests_fire_uploadFile, draws_fire_uploadFile.
    rewrite <- app_assoc. reflexivity.
Qed.

Lemma tasks_start_all (us : Queue) :
  forall w, length (tasks (start_all random us w)) = length (tasks w) + length us.
Proof.
  induction us as [| u rest IH]; intros w; [simpl; lia |].
  change (start_all random (u :: rest) w)
    with (start_all random rest (fire random (uploadFile u) w)).
  rewrite IH. destruct (fire_uploadFile_body u w) as [k ->]. simpl.
  rewrite length_app. simpl. lia.
Qed.

Lemma length_drawn (fileList : list File) (n : nat) :
  length (drawn random fileList n) = length (filter validateFile fileList).
Proof. now rewrite <- (drawn_files random fileList n), length_map. Qed.

(** X4: [handleFiles] puts in flight one request for each file of the
    list that passes validation, in the order of the list, after the
    requests already in flight: its body has the five fields [data] (the
    file), [filename], [filesize] (the size in decimal), [filetype] and
    [userId], in this order.  Two draws are made for each accepted file:
    first the ids of all of them, then their [userId]s. *)
Theorem handleFiles_sends_one_request_per_file (fileList : list File) (w : World) :
  let accepted := filter validateFile fileList in
  let k := length accepted in
  requests (fire random (handleFiles fileList) w)
  = requests w
      ++ map (fun p => upload_body (fst p) (random (snd p)))
           (combine accepted (seq (k + draws w) k))
  /\ draws (fire random (handleFiles fileList) w) = k + (k + draws w)
  /\ length (tasks (fire random (handleFiles fileList) w))
     = length (tasks w) + k.
Proof.
  cbv zeta. rewrite fire_handleFiles.
  rewrite requests_start_all, draws_start_all, tasks_start_all.
  rewrite drawn_files, !length_drawn. simpl. repeat split.
Qed.

(** X5: a list none of whose files passes validation, the empty list
    among them, changes neither the queue nor what is in flight, and
    makes no draw. *)
Theorem handleFiles_without_valid_file (fileList : list File) (w : World) :
  filter validateFile fileList = [] ->
  files (fire random (handleFiles fileList) w) = files w
  /\ tasks (fire random (handleFiles fileList) w) = tasks w
  /\ draws (fire random (handleFiles fileList) w) = draws w.
Proof.
  intros Hnone. rewrite fire_handleFiles.
  assert (Hd : drawn random fileList (draws w) = []).
  { apply map_eq_nil with (f := file). now rewrite drawn_files. }
  rewrite Hd. simpl. now rewrite app_nil_r.
Qed.

(** X6: when the response has a status in 200-299, [uploadFile] next
    waits for the body.  When the body is read, every entry of the id
    gets status ['success'] and progress 100 and keeps its file, id and
    error text; when reading it fails, every entry of the id gets status
    ['error'], progress 0 and as error text the message of the [Error]
    thrown, or ['Upload failed'] when what was thrown is no [Error].  In
    both cases the entries of other ids, the uploads in flight and the
    draws stay as they are, and the upload is over: a 2xx response alone
    does not make the upload a success. *)
Theorem ok_response_then_body (u : UploadedFile) (w : World) (r : Response.t) :
  Response.ok r = true ->
  exists body k k',
    run random (uploadFile u) w
    = (set_files (markUploading (id u)) (next_draw w), Suspended (AtFetch body k))
    /\ (forall w', run random (k (inr r)) w' = (w', Suspended (AtText r k')))
    /\ (forall text w',
          run random (k' (inr text)) w'
          = (set_files (markSuccess (id u)) w', Finished))
    /\ (forall e w',
          run random (k' (inl e)) w'
          = (set_files (markError (id u) (message_of e)) w', Finished))
    /\ (forall text w',
          exists w'',
            run random (k' (inr text)) w' = (w'', Finished)
            /\ files w''
               = map (fun e =>
                        if String.eqb (id e) (id u)
                        then {| file := file e; id := id e;
                                status := Status.success; progress := 100;
                                error := error e |}
                        else e)
                   (files w')
            /\ tasks w'' = tasks w' /\ draws w'' = draws w')
    /\ (forall e w',
          exists w'',
            run random (k' (inl e)) w' = (w'', Finished)
            /\ files w''
               = map (fun f =>
                        if String.eqb (id f) (id u)
                        then {| file := file f; id := id f;
                                status := Status.error; progress := 0;
                                error := Some match e with
                                              | ErrorObject m => m
                                              | OtherValue => "Upload failed"
                                              end |}
                        else f)
                   (files w')
            /\ tasks w'' = tasks w' /\ draws w'' = draws w').
Proof.
  intros Hok. do 3 eexists. split; [reflexivity |].
  split; [| split; [| split; [| split]]].
  - intros w'. cbn. rewrite Hok. cbn. reflexivity.
  - reflexivity.
  - intros [m |] w'; reflexivity.
  - intros text w'. eexists. split; [reflexivity |]. repeat split.
  - intros [m |] w'; (eexists; split; [reflexivity |]); repeat split.
Qed.

(** X7: a click on Retry is possible only on a row whose status is
    ['error']; it marks the entries of the row's id as uploading, puts
    one more request in flight, for the file of the row and with a
    [userId] of a new draw, and touches no other request. *)
Theorem retry_sends_the_file_again (w w' : World) (row : nat) :
  step random w (ClickRetry row) = Some w' ->
  exists u,
    nth_error (files w) row = Some u
    /\ status u = Status.error
    /\ files w' = markUploading (id u) (files w)
    /\ requests w' = requests w ++ [upload_body (file u) (random (draws w))]
    /\ draws w' = S (draws w).
Proof.
  simpl. destruct (nth_error (files w) row) as [u |]; [| discriminate].
  destruct (status u) eqn:Hst; try discriminate.
  intros H. injection H as <-. exists u.
  rewrite fire_retryUpload, requests_fire_uploadFile, draws_fire_uploadFile,
    files_fire_uploadFile.
  split; [reflexivity | split; [exact Hst | repeat split]].
Qed.

(** X8: a click on the remove button of a row takes out of the queue
    that row and every other row of the same id, keeps all other rows in
    their order, and leaves what is in flight as it is (the upload of the
    row is not cancelled). *)
Theorem remove_takes_the_row_out (w w' : World) (row : nat) :
  step random w (ClickRemove row) = Some w' ->
  exists u,
    nth_error (files w) row = Some u
    /\ files w' = filter (fun f => negb (String.eqb (id f) (id u))) (files w)
    /\ ~ In u (files w')
    /\ length (files w') < length (files w)
    /\ tasks w' = tasks w
    /\ draws w' = draws w.
Proof.
  simpl. destruct (nth_error (files w) row) as [u |] eqn:Hrow; [| discriminate].
  intros H. injection H as <-. exists u. rewrite fire_removeFile. simpl.
  split; [reflexivity | split; [reflexivity | split; [| split; [| split]]]];
    try reflexivity.
  - intros Hin. apply filter_In in Hin. destruct Hin as [_ Hneq].
    now rewrite String.eqb_refl in Hneq.
  - apply nth_error_In in Hrow.
    induction (files w) as [| e q IH]; [contradiction |]. simpl.
    destruct Hrow as [-> | Hin].
    + rewrite String.eqb_refl. simpl.
      pose proof (filter_length_le (fun f => negb (String.eqb (id f) (id u))) q).
      lia.
    + specialize (IH Hin).
      destruct (negb (String.eqb (id e) (id u))); simpl; lia.
Qed.

End Requests.

Lemma handleFiles_without_valid_file_witness :
  files (fire Demo.random (handleFiles [Demo.setup]) Demo.final) = files Demo.final.
Proof.
  exact (proj1 (@handleFiles_without_valid_file Demo.random [Demo.setup]
                  Demo.final eq_refl)).
Defined.

Lemma ok_response_then_body_witness :
  exists body k k',
    run Demo.random (uploadFile (new_entry Demo.report (Demo.random 0))) init
    = (set_files (markUploading "0fzyo82mv") (next_draw init),
       Suspended (AtFetch body k))
    /\ (forall w',
          run Demo.random (k (inr Demo.accepted)) w'
          = (w', Suspended (AtText Demo.accepted k')))
    /\ map (fun e => (status e, progress e, error e))
         (files (fst (run Demo.random (k' (inr "done")) Demo2.started)))
       = [(Status.success, 100%Z, None)]
    /\ map (fun e => (status e, progress e, error e))
         (files (fst (run Demo.random (k' (inl OtherValue)) Demo2.started)))
       = [(Status.error, 0%Z, Some "Upload failed")].
Proof.
  destruct (@ok_response_then_body Demo.random
              (new_entry Demo.report (Demo.random 0)) init Demo.accepted eq_refl)
    as (body & k & k' & Hrun & Hwait & _ & _ & Hread & Hfail).
  exists body, k, k'. split; [exact Hrun | split; [exact Hwait | split]].
  - destruct (Hread "done" Demo2.started) as (w'' & Hr & Hfiles & _).
    rewrite Hr. cbn [fst]. rewrite Hfiles. reflexivity.
  - destruct (Hfail OtherValue Demo2.started) as (w'' & Hr & Hfiles & _).
    rewrite Hr. cbn [fst]. rewrite Hfiles. reflexivity.
Defined.

Lemma retry_sends_the_file_again_witness :
  map (get "filename") (requests Demo2.retried)
  = [Some (TextValue "report.pdf")]
  /\ map status (files Demo2.retried) = [Status.uploading].
Proof.
  destruct (@retry_sends_the_file_again Demo.random Demo2.failed Demo2.retried
              0 eq_refl)
    as (u & Hu & _ & Hfiles & Hreq & _).
  injection Hu as <-. rewrite Hreq, Hfiles. split; reflexivity.
Defined.

Lemma remove_takes_the_row_out_witness :
  length (files Demo2.removed) < length (files Demo.final).
Proof.
  destruct (@remove_takes_the_row_out Demo.random Demo.final Demo2.removed
              1 eq_refl)
    as (u & _ & _ & _ & Hlen & _).
  exact Hlen.
Defined.

(** ** Every update of the queue *)

Section Updates.

Variable random : nat -> Random.Draw.

(** A relation between a queue and the next one that holds of an append,
    of a removal by id and of a rewrite of the entries of one id that
    keeps their file and id. *)
Variable R : Queue -> Queue -> Prop.

Hypothesis R_append : forall q new, R q (q ++ new).

Hypothesis R_filter : forall q i,
  R q (filter (fun f => negb (String.eqb (id f) i)) q).

Hypothesis R_mark : forall (g : UploadedFile -> UploadedFile) i q,
  (forall e, file (g e) = file e /\ id (g e) = id e) ->
  R q (map (fun f => if String.eqb (id f) i then g f else f) q).

Definition chained (w : World) : Prop :=
  owned random (tasks w) /\ chain R (files w :: past w).

Lemma chained_uploadFile (u : UploadedFile) (w : World) :
  chained w -> chained (fire random (uploadFile u) w).
Proof.
  intros [[owners Hown] Hch].
  destruct (fire_uploadFile random u w) as (t & -> & Ht). split; simpl.
  - exists (owners ++ [id u]). apply Forall2_app; [exact Hown |].
    constructor; [now left | constructor].
  - split; [| exact Hch]. apply R_mark. intros e. now split.
Qed.

Lemma chained_start_all (us : Queue) :
  forall w, chained w -> chained (start_all random us w).
Proof.
  induction us as [| u rest IH]; intros w Hw; [exact Hw |].
  apply IH. now apply chained_uploadFile.
Qed.

Lemma chained_step (w w' : World) (i : Input) :
  chained w -> step random w i = Some w' -> chained w'.
Proof.
  intros Hw Hstep. destruct i as [fileList | row | row | n o]; simpl in Hstep.
  - injection Hstep as <-. rewrite fire_handleFiles.
    apply chained_start_all. destruct Hw as [Hown Hch].
    split; [exact Hown |]. simpl. split; [apply R_append | exact Hch].
  - destruct (nth_error (files w) row) as [u |]; [| discriminate].
    injection Hstep as <-. rewrite fire_removeFile.
    destruct Hw as [Hown Hch]. split; [exact Hown |]. simpl.
    split; [apply R_filter | exact Hch].
  - destruct (nth_error (files w) row) as [u |]; [| discriminate].
    destruct (status u); try discriminate.
    injection Hstep as <-. rewrite fire_retryUpload.
    now apply chained_uploadFile.
  - destruct (nth_error (tasks w) n) as [t |] eqn:Hn; [| discriminate].
    destruct (resume t o) as [p |] eqn:Hres; [| discriminate].
    injection Hstep as <-.
    destruct Hw as [[owners Hown] Hch].
    destruct (Forall2_nth_error Hown _ Hn) as (j & _ & Ht).
    assert (Hown' : Forall2 (upload_task random)
                      (firstn n owners ++ skipn (S n) owners)
                      (tasks (drop_task n w))).
    { simpl. now apply Forall2_drop. }
    destruct (@fire_resumed random j t o p (drop_task n w) Ht Hres)
      as [[m ->] | [-> | (t' & Ht' & ->)]].
    + split; [eexists; exact Hown' |]. simpl. split; [| exact Hch].
      apply (R_mark (fun e => {| file := file e; id := id e;
                                 status := Status.error; progress := 0;
                                 error := Some m |})).
      intros e. now split.
    + split; [eexists; exact Hown' |]. simpl. split; [| exact Hch].
      apply (R_mark (fun e => {| file := file e; id := id e;
                                 status := Status.success; progress := 100;
                                 error := error e |})).
      intros e. now split.
    + split; [| exact Hch].
      exists ((firstn n owners ++ skipn (S n) owners) ++ [j]). simpl.
      apply Forall2_app; [exact Hown' |].
      constructor; [now right | constructor].
Qed.

Lemma chained_exec (inputs : list Input) :
  forall w w', chained w -> exec random inputs w = Some w' -> chained w'.
Proof.
  induction inputs as [| i rest IH]; intros w w' Hw Hex; simpl in Hex.
  - now injection Hex as <-.
  - destruct (step random w i) as [w1 |] eqn:Hstep; [| discriminate].
    apply (IH w1 w'); [| exact Hex].
    exact (@chained_step w w1 i Hw Hstep).
Qed.

Lemma chained_init : chained init.
Proof. split; [exists []; constructor | exact I]. Qed.

End Updates.

Lemma owned_exec (random : nat -> Random.Draw) (inputs : list Input) (w : World) :
  exec random inputs init = Some w -> owned random (tasks w).
Proof.
  intros Hex.
  destruct (@chained_exec random (fun _ _ => True)
              (fun _ _ => I) (fun _ _ => I) (fun _ _ _ _ => I)
              inputs init w (chained_init random _) Hex) as [Hown _].
  exact Hown.
Qed.

Lemma same_keys_refl (q : Queue) : same_keys q q.
Proof. induction q as [| e q IH]; constructor; [now split | exact IH]. Qed.

Lemma same_keys_trans (q1 q2 q3 : Queue) :
  same_keys q1 q2 -> same_keys q2 q3 -> same_keys q1 q3.
Proof.
  intros H12. revert q3.
  induction H12 as [| e1 e2 q1 q2 [Hf Hi] _ IH]; intros q3 H23.
  - inversion H23. constructor.
  - inversion H23 as [| e2' e3 q2' q3' [Hf' Hi'] Hrest]; subst.
    constructor; [split; congruence | now apply IH].
Qed.

Lemma same_keys_mark (g : UploadedFile -> UploadedFile) (i : string) (q : Queue) :
  (forall e, file (g e) = file e /\ id (g e) = id e) ->
  same_keys q (map (fun f => if String.eqb (id f) i then g f else f) q).
Proof.
  intros Hg. induction q as [| e q IH]; simpl; constructor; [| exact IH].
  destruct (String.eqb (id e) i); [apply Hg | now split].
Qed.

Lemma same_keys_fire_uploadFile (random : nat -> Random.Draw)
      (u : UploadedFile) (w : World) :
  same_keys (files w) (files (fire random (uploadFile u) w)).
Proof.
  rewrite files_fire_uploadFile. apply same_keys_mark. intros e. now split.
Qed.

Lemma same_keys_start_all (random : nat -> Random.Draw) (us : Queue) :
  forall w, same_keys (files w) (files (start_all random us w)).
Proof.
  induction us as [| u rest IH]; intros w; [apply same_keys_refl |].
  change (start_all random (u :: rest) w)
    with (start_all random rest (fire random (uploadFile u) w)).
  eapply same_keys_trans; [apply same_keys_fire_uploadFile | apply IH].
Qed.

Lemma same_keys_files (q q' : Queue) :
  same_keys q q' -> map file q' = map file q.
Proof.
  induction 1 as [| e e' q q' [Hf _] _ IH]; [reflexivity |].
  simpl. now rewrite Hf, IH.
Qed.

(** X9: entries leave the queue through the remove button only.  In a
    session, whatever the draws, a turn that is not a click on a remove
    button keeps every entry of the queue at its place with its file and
    its id, and adds entries at the end only: one for each accepted file,
    in their order, when the turn is a drop, and none otherwise. *)
Theorem entries_stay_unless_removed (random : nat -> Random.Draw)
        (inputs : list Input) (w w' : World) (i : Input) :
  exec random inputs init = Some w ->
  step random w i = Some w' ->
  (forall row, i <> ClickRemove row) ->
  exists kept new,
    files w' = kept ++ new
    /\ same_keys (files w) kept
    /\ map file new
       = match i with
         | DropFiles fileList => filter validateFile fileList
         | _ => []
         end.
Proof.
  intros Hex Hstep Hi. destruct (owned_exec _ _ Hex) as [owners Hown].
  destruct i as [fileList | row | row | n o]; simpl in Hstep.
  - injection Hstep as <-. rewrite fire_handleFiles.
    set (us := drawn random fileList (draws w)).
    set (w0 := set_files (fun prev => prev ++ us) (add_draws (length us) w)).
    pose proof (same_keys_start_all random us w0) as Hkeys.
    change (files w0) with (files w ++ us) in Hkeys.
    apply Forall2_app_inv_l in Hkeys.
    destruct Hkeys as (kept & new & Hkept & Hnew & Heq).
    exists kept, new. split; [exact Heq | split; [exact Hkept |]].
    rewrite (same_keys_files Hnew). apply drawn_files.
  - exfalso. now apply (Hi row).
  - destruct (nth_error (files w) row) as [u |]; [| discriminate].
    destruct (status u); try discriminate.
    injection Hstep as <-. rewrite fire_retryUpload.
    exists (files (fire random (uploadFile u) w)), [].
    rewrite app_nil_r. split; [reflexivity | split; [| reflexivity]].
    apply same_keys_fire_uploadFile.
  - destruct (nth_error (tasks w) n) as [t |] eqn:Hn; [| discriminate].
    destruct (resume t o) as [p |] eqn:Hres; [| discriminate].
    injection Hstep as <-.
    destruct (Forall2_nth_error Hown _ Hn) as (j & _ & Ht).
    exists (files (fire random p (drop_task n w))), [].
    rewrite app_nil_r. split; [reflexivity | split; [| reflexivity]].
    destruct (@fire_resumed random j t o p (drop_task n w) Ht Hres)
      as [[m ->] | [-> | (t' & Ht' & ->)]].
    + apply (same_keys_mark (fun e => {| file := file e; id := id e;
                                         status := Status.error; progress := 0;
                                         error := Some m |})).
      intros e. now split.
    + apply (same_keys_mark (fun e => {| file := file e; id := id e;
                                         status := Status.success; progress := 100;
                                         error := error e |})).
      intros e. now split.
    + apply same_keys_refl.
Qed.

Lemma entries_stay_unless_removed_witness :
  exists kept new,
    files Demo2.failed = kept ++ new
    /\ same_keys (files Demo2.started) kept
    /\ map file new = [].
Proof.
  refine (@entries_stay_unless_removed Demo.random
            [DropFiles [Demo.report]] Demo2.started Demo2.failed
            (Settle 0 (Responded Demo.server_error)) eq_refl eq_refl _).
  intros row H. discriminate H.
Defined.






(** ** Rows and what is in flight *)

Lemma In_drop_other {A : Type} (l : list A) :
  forall n a x, nth_error l n = Some a -> In x l -> x <> a ->
                In x (firstn n l ++ skipn (S n) l).
Proof.
  induction l as [| b l IH]; intros n a x Hn Hin Hne; [contradiction |].
  destruct n as [| n]; simpl in *.
  - injection Hn as ->. destruct Hin as [-> | Hin]; [contradiction | exact Hin].
  - destruct Hin as [-> | Hin]; [now left | right]. eapply IH; eauto.
Qed.

Section InFlight.

Variable random : nat -> Random.Draw.

Lemma flight_uploadFile (u : UploadedFile) (w : World) :
  uploads_in_flight random w ->
  uploads_in_flight random (fire random (uploadFile u) w).
Proof.
  intros (owners & Hown & Hup).
  destruct (fire_uploadFile random u w) as (t & -> & Ht).
  exists (owners ++ [id u]). simpl. split.
  - apply Forall2_app; [exact Hown |]. constructor; [now left | constructor].
  - intros e' He' Hst. unfold markUploading in He'.
    apply in_map_iff in He'. destruct He' as (e & <- & He).
    apply in_or_app. destruct (String.eqb (id e) (id u)) eqn:E.
    + right. simpl. left. apply String.eqb_eq in E. now symmetry.
    + left. now apply Hup.
Qed.

Lemma flight_start_all (us : Queue) :
  forall w, uploads_in_flight random w ->
            uploads_in_flight random (start_all random us w).
Proof.
  induction us as [| u rest IH]; intros w Hw; [exact Hw |].
  apply IH. now apply flight_uploadFile.
Qed.

Lemma flight_finish (g : UploadedFile -> UploadedFile) (i : string) (n : nat)
      (w : World) (owners : list string) :
  (forall e, status (g e) <> Status.uploading) ->
  (forall e, id (g e) = id e) ->
  Forall2 (upload_task random) owners (tasks w) ->
  (forall e, In e (files w) -> status e = Status.uploading -> In (id e) owners) ->
  nth_error owners n = Some i ->
  uploads_in_flight random
    (set_files (map (fun f => if String.eqb (id f) i then g f else f))
       (drop_task n w)).
Proof.
  intros Hg Hid Hown Hup Hn.
  exists (firstn n owners ++ skipn (S n) owners). simpl. split.
  - now apply Forall2_drop.
  - intros e' He' Hst. apply in_map_iff in He'. destruct He' as (e & <- & He).
    destruct (String.eqb (id e) i) eqn:E.
    + now destruct (Hg e).
    + apply (In_drop_other _ _ Hn); [now apply Hup |].
      now apply String.eqb_neq.
Qed.

Lemma flight_step (w w' : World) (i : Input) :
  uploads_in_flight random w -> step random w i = Some w' ->
  uploads_in_flight random w'.
Proof.
  intros Hw Hstep. destruct i as [fileList | row | row | n o]; simpl in Hstep.
  - injection Hstep as <-. rewrite fire_handleFiles.
    apply flight_start_all. destruct Hw as (owners & Hown & Hup).
    exists owners. simpl. split; [exact Hown |].
    intros e He Hst. apply in_app_iff in He. destruct He as [He | He].
    + now apply Hup.
    + pose proof (drawn_pending random fileList (draws w)) as Hp.
      rewrite Forall_forall in Hp. rewrite (Hp e He) in Hst. discriminate.
  - destruct (nth_error (files w) row) as [u |]; [| discriminate].
    injection Hstep as <-. rewrite fire_removeFile.
    destruct Hw as (owners & Hown & Hup). exists owners. simpl.
    split; [exact Hown |]. intros e He. apply filter_In in He. now apply Hup.
  - destruct (nth_error (files w) row) as [u |]; [| discriminate].
    destruct (status u); try discriminate.
    injection Hstep as <-. rewrite fire_retryUpload.
    now apply flight_uploadFile.
  - destruct (nth_error (tasks w) n) as [t |] eqn:Hn; [| discriminate].
    destruct (resume t o) as [p |] eqn:Hres; [| discriminate].
    injection Hstep as <-. destruct Hw as (owners & Hown & Hup).
    destruct (Forall2_nth_error Hown _ Hn) as (j & Hj & Ht).
    destruct (@fire_resumed random j t o p (drop_task n w) Ht Hres)
      as [[m ->] | [-> | (t' & Ht' & ->)]].
    + apply (@flight_finish
               (fun e => {| file := file e; id := id e; status := Status.error;
                            progress := 0; error := Some m |})
               j n w owners); auto; discriminate.
    + apply (@flight_finish
               (fun e => {| file := file e; id := id e; status := Status.success;
                            progress := 100; error := error e |})
               j n w owners); auto; discriminate.
    + exists ((firstn n owners ++ skipn (S n) owners) ++ [j]). simpl. split.
      * apply Forall2_app; [now apply Forall2_drop |].
        constructor; [now right | constructor].
      * intros e He Hst. apply in_or_app.
        destruct (String.eqb (id e) j) eqn:E.
        -- right. simpl. left. apply String.eqb_eq in E. now symmetry.
        -- left. apply (In_drop_other _ _ Hj); [now apply Hup |].
           now apply String.eqb_neq.
Qed.

Lemma flight_exec (inputs : list Input) :
  forall w w',
    uploads_in_flight random w -> exec random inputs w = Some w' ->
    uploads_in_flight random w'.
Proof.
  induction inputs as [| i rest IH]; intros w w' Hw Hex; simpl in Hex.
  - now injection Hex as <-.
  - destruct (step random w i) as [w1 |] eqn:Hstep; [| discriminate].
    apply (IH w1 w'); [| exact Hex].
    exact (@flight_step w w1 i Hw Hstep).
Qed.

Lemma flight_init : uploads_in_flight random init.
Proof. exists []. split; [constructor | intros e []]. Qed.

End InFlight.

(** X11: in every session, when no request and no reading of a body is
    in flight, every row is in a final state: its status is ['success']
    or ['error'], none is left pending or uploading. *)
Theorem rows_final_when_idle (random : nat -> Random.Draw)
        (inputs : list Input) (w : World) :
  exec random inputs init = Some w ->
  tasks w = [] ->
  Forall (fun e => status e = Status.success \/ status e = Status.error)
    (files w).
Proof.
  intros Hex Hidle.
  destruct (@settled_exec random inputs init w (settled_init random) Hex)
    as (_ & Hnp & _).
  destruct (@flight_exec random inputs init w (flight_init random) Hex)
    as (owners & Hown & Hup).
  rewrite Hidle in Hown. inversion Hown; subst.
  apply Forall_forall. intros e He.
  rewrite Forall_forall in Hnp. specialize (Hnp e He). specialize (Hup e He).
  destruct (status e); try tauto.
  destruct (Hup eq_refl).
Qed.

Lemma rows_final_when_idle_witness :
  Forall (fun e => status e = Status.success \/ status e = Status.error)
    (files Demo2.idle).
Proof.
  exact (@rows_final_when_idle Demo.random Demo2.idle_session Demo2.idle
           demo_idle_run eq_refl).
Defined.

(** X12: in every session, at the end of every turn, no row shows the
    Pending badge, and the progress bar of every row that has one is at
    0 percent: the bar never moves. *)
Theorem progress_bar_stays_at_zero (random : nat -> Random.Draw)
        (inputs : list Input) (w : World) :
  exec random inputs init = Some w ->
  Forall (fun e => badge e <> PendingBadge
                   /\ forall p, progressBar e = Some p -> p = 0%Z)
    (files w).
Proof.
  intros Hex.
  destruct (@settled_exec random inputs init w (settled_init random) Hex)
    as (_ & Hnp & _).
  assert (Hbar : Forall (Forall (fun e => forall p, progressBar e = Some p -> p = 0%Z))
                   (files w :: past w)).
  { apply (@sound_exec random
             (fun e => forall p, progressBar e = Some p -> p = 0%Z))
      with (inputs := inputs) (w := init) (w' := w);
      [| | | | apply sound_init | exact Hex];
      unfold progressBar; simpl; intros; congruence. }
  inversion Hbar as [| q l Hq _]; subst.
  rewrite Forall_forall in *. intros e He. split.
  - specialize (Hnp e He). unfold badge. destruct (status e); congruence.
  - now apply Hq.
Qed.

Lemma progress_bar_stays_at_zero_witness :
  Forall (fun e => badge e <> PendingBadge
                   /\ forall p, progressBar e = Some p -> p = 0%Z)
    (files Demo.final).
Proof.
  exact (@progress_bar_stays_at_zero Demo.random Demo.session Demo.final
           demo_final_run).
Defined.

Lemma digit36_lower (x : N) : lower_alnum (Random.digit36 x) = true.
Proof.
  unfold Random.digit36.
  assert (H : N.to_nat (x mod 36) < 36).
  { pose proof (N.mod_upper_bound x 36). lia. }
  destruct (N.to_nat (x mod 36)) as [| n]; [reflexivity |].
  do 35 (destruct n as [| n]; [reflexivity |]).
  lia.
Qed.

(** X13: in every session, the id of every entry has at most nine
    characters, each a digit or a lower-case letter (it is empty when the
    draw was the number 0). *)
Theorem ids_are_short_base36 (random : nat -> Random.Draw)
        (inputs : list Input) (w : World) :
  exec random inputs init = Some w ->
  Forall (fun e => String.length (id e) <= 9
                   /\ all_chars lower_alnum (id e) = true)
    (files w).
Proof.
  intros Hex.
  assert (H : Forall (Forall (fun e => String.length (id e) <= 9
                                       /\ all_chars lower_alnum (id e) = true))
                (files w :: past w)).
  { apply (@sound_exec random
             (fun e => String.length (id e) <= 9
                       /\ all_chars lower_alnum (id e) = true))
      with (inputs := inputs) (w := init) (w' := w);
      [| | | | apply sound_init | exact Hex]; try (simpl; intros; assumption).
    intros f r. simpl. fold (id_of r). rewrite id_of_digits. split.
    - rewrite string_of_list_length, length_map, length_firstn. lia.
    - unfold all_chars. rewrite list_ascii_of_string_of_list_ascii.
      apply forallb_forall. intros c Hc.
      apply in_map_iff in Hc. destruct Hc as (x & <- & _).
      apply digit36_lower. }
  now inversion H.
Qed.

Lemma ids_are_short_base36_witness :
  Forall (fun e => String.length (id e) <= 9
                   /\ all_chars lower_alnum (id e) = true)
    (files Demo.final).
Proof.
  exact (@ids_are_short_base36 Demo.random Demo.session Demo.final
           demo_final_run).
Defined.

Example empty_id_for_draw_zero : id (new_entry Demo.report []) = EmptyString.
Proof. reflexivity. Qed.

(** ** The drop zone *)

(** X14: the queue, what is in flight and the draws depend on the drops,
    the changes of the file input and the other turns only: drag-over
    and drag-leave events, and drops and changes without a file list, do
    nothing to them, and a drop of a file list does to them what the
    choice of the same list in the file input does. *)
Theorem drag_events_leave_the_queue (random : nat -> Random.Draw)
        (events : list UIEvent) :
  forall p : Page,
    option_map world (exec_page random events p)
    = exec random (queue_inputs events) (world p).
Proof.
  induction events as [| ev rest IH]; intros p; [reflexivity |].
  destruct ev as [| | [fl |] | [fl |] | i]; simpl;
    try (rewrite IH; reflexivity).
  destruct (step random (world p) i) as [w1 |]; [| reflexivity].
  rewrite IH. reflexivity.
Qed.

Example page_after_events :
  option_map (fun p => (isDragging p, map (fun e => name (file e)) (files (world p))))
    (exec_page Demo.random Demo2.events (mkPage init true))
  = Some (false, ["report.pdf"; "table.csv"]).
Proof. reflexivity. Qed.

(** ** The two ends of the percentage *)

Lemma ends_exact_up_to_199 :
  forallb (fun t => forallb (fun s => ends_exact s t) (seq 0 (S t))) (seq 1 199)
  = true.
Proof. vm_compute. reflexivity. Qed.

(** X15: for a queue of 1 to 199 entries, the summary shows 100 exactly
    when every entry has succeeded, and 0 exactly when none has. *)
Theorem percent_100_iff_all_succeeded (fs : Queue) :
  0 < length fs <= 199 ->
  (integer_of (percentComplete fs) = Some 100%Z <-> succeeded fs = length fs)
  /\ (integer_of (percentComplete fs) = Some 0%Z <-> succeeded fs = 0).
Proof.
  intros Hlen.
  assert (Hs : succeeded fs <= length fs) by apply filter_length_le.
  pose proof ends_exact_up_to_199 as H.
  rewrite forallb_forall in H.
  specialize (H (length fs)). rewrite forallb_forall in H.
  assert (He : ends_exact (succeeded fs) (length fs) = true).
  { apply H; apply in_seq; lia. }
  unfold ends_exact in He.
  change (percentComplete fs) with (percent_of (succeeded fs) (length fs)).
  destruct (integer_of (percent_of (succeeded fs) (length fs))) as [p |];
    [| discriminate].
  apply andb_true_iff in He. destruct He as [H100 H0].
  apply eqb_prop in H100. apply eqb_prop in H0.
  split; split; intros Hx.
  - injection Hx as ->. apply Nat.eqb_eq. now rewrite <- H100.
  - apply Nat.eqb_eq in Hx. rewrite Hx in H100.
    apply Z.eqb_eq in H100. now rewrite H100.
  - injection Hx as ->. apply Nat.eqb_eq. now rewrite <- H0.
  - apply Nat.eqb_eq in Hx. rewrite Hx in H0.
    apply Z.eqb_eq in H0. now rewrite H0.
Qed.

Lemma percent_100_iff_all_succeeded_witness :
  integer_of (percentComplete (files Demo2.idle)) <> Some 100%Z.
Proof.
  intros H.
  assert (Hlen : 0 < length (files Demo2.idle) <= 199) by (simpl; lia).
  pose proof (proj1 (proj1 (@percent_100_iff_all_succeeded (files Demo2.idle) Hlen)) H).
  discriminate.
Defined.

(** From 200 entries on the upper end is no longer exact: 199 of 200 is
    99.5 and is shown as 100. *)
Example percent_of_199_of_200 : integer_of (percent_of 199 200) = Some 100%Z.
Proof. reflexivity. Qed.
